(** * cifti_roi: cluster-to-ROI overlap resolution

    A shallow embedding of [cifti_roi.py] and the properties of its
    overlap resolver ([get_roi_name]), record writer ([write_spread]),
    modality orchestrator ([proc_stat_cluster]) and command line entry.

    Python objects that are mutated in place (numpy arrays) live in a
    store and are passed by reference; exceptions and the store are
    threaded through a small state-and-error monad. *)

From stdpp Require Import gmap strings list sorting.
From Stdlib Require Import ZArith Lia.
From Stdlib.Strings Require Import Ascii.

Local Open Scope Z_scope.

(** ** Exceptions, world and monad *)

(** The Python exceptions the modelled code can raise.  [Dangling] has no
    Python counterpart: it is the model's answer to a reference that is
    not in the store, which Python's object model excludes. *)
Inductive exn : Type :=
  | IndexError
  | KeyError (k : Z)
  | SystemExit (code : Z)
  | Dangling.

Definition loc := nat.

(** The part of the machine the program acts on: numpy integer arrays by
    reference, regular files as their sequence of rows, and the lines
    printed on standard output. *)
Record World : Type := mkWorld {
  arrays : gmap loc (list Z);
  files  : gmap string (list string);
  stdout : list string
}.

Definition set_arrays (f : gmap loc (list Z) → gmap loc (list Z)) (w : World) : World :=
  mkWorld (f (arrays w)) (files w) (stdout w).
Definition set_files (f : gmap string (list string) → gmap string (list string)) (w : World) : World :=
  mkWorld (arrays w) (f (files w)) (stdout w).
Definition set_stdout (f : list string → list string) (w : World) : World :=
  mkWorld (arrays w) (files w) (f (stdout w)).

(** A computation either raises or returns, and in both cases leaves a
    world behind: what was written before an exception stays written. *)
Definition M (A : Type) : Type := World → (exn + A) * World.

Definition ret {A} (a : A) : M A := fun w => (inr a, w).
Definition raise {A} (e : exn) : M A := fun w => (inl e, w).
Definition bind {A B} (m : M A) (k : A → M B) : M B :=
  fun w => match m w with
           | (inr a, w') => k a w'
           | (inl e, w') => (inl e, w')
           end.

Notation "x <~ m ;; k" := (bind m (fun x => k))
  (at level 100, m at next level, right associativity, only parsing).
Notation "m ;;; k" := (bind m (fun _ => k))
  (at level 100, right associativity, only parsing).

(** ** numpy arrays *)

(** [a[idx] = v] for a one-dimensional array and [0 <= idx]. *)
Definition setitem (a : loc) (idx : nat) (v : Z) : M unit :=
  fun w => match arrays w !! a with
           | Some l =>
               if bool_decide (idx < length l)%nat
               then (inr tt, set_arrays <[a := <[idx := v]> l]> w)
               else (inl IndexError, w)
           | None => (inl Dangling, w)
           end.

(** Reading the array behind a reference. *)
Definition getarray (a : loc) : M (list Z) :=
  fun w => match arrays w !! a with
           | Some l => (inr l, w)
           | None => (inl Dangling, w)
           end.

(** A freshly loaded array gets a reference no one else holds. *)
Definition newarray (l : list Z) : M loc :=
  fun w => let a := fresh (dom (arrays w)) in
           (inr a, set_arrays <[a := l]> w).

(** [np.unique]: the sorted unique elements of an array. *)
Fixpoint insert_unique (x : Z) (l : list Z) : list Z :=
  match l with
  | [] => [x]
  | y :: l' =>
      if x <? y then x :: l
      else if x =? y then l
      else y :: insert_unique x l'
  end.

Definition np_unique (l : list Z) : list Z := foldr insert_unique [] l.

(** ** The overlap resolver *)

(** Lines 199-201: [for idx,val in enumerate(cluster_data)]. *)
Fixpoint suppress_loop (cluster_data : list Z) (idx : nat) (atlas_data : loc) : M unit :=
  match cluster_data with
  | [] => ret tt
  | val :: rest =>
      (if bool_decide (val = 0) then setitem atlas_data idx 0 else ret tt) ;;;
      suppress_loop rest (S idx) atlas_data
  end.

(** Lines 206-209: [for i in ...: roi_list.append(atlas_dict[i])]. *)
Fixpoint lookup_loop (ids : list Z) (atlas_dict : gmap Z string)
    (roi_list : list string) : M (list string) :=
  match ids with
  | [] => ret roi_list
  | i :: rest =>
      match atlas_dict !! i with
      | Some tmp_list => lookup_loop rest atlas_dict (roi_list ++ [tmp_list])
      | None => raise (KeyError i)
      end
  end.

(** [get_roi_name(cluster_data, atlas_data, atlas_dict)].  The cluster
    array is only read and is passed by value, one value per vertex; its
    values are only ever compared with 0 and are taken as integers.  The
    atlas array is written and is passed by reference. *)
Definition get_roi_name (cluster_data : list Z) (atlas_data : loc)
    (atlas_dict : gmap Z string) : M (list string) :=
  suppress_loop cluster_data 0%nat atlas_data ;;;
  a <~ getarray atlas_data ;;
  lookup_loop (drop 1 (np_unique a)) atlas_dict [].

(** *** Reference functions for the resolver's properties *)

(** The labels after suppression: 0 where the mask is 0, the label
    elsewhere, and untouched where the mask has no element. *)
Fixpoint mask_out (mask labels : list Z) : list Z :=
  match mask, labels with
  | m :: mask', l :: labels' =>
      (if bool_decide (m = 0) then 0 else l) :: mask_out mask' labels'
  | _, _ => labels
  end.

(** Index [i] carries label [k] inside a cluster. *)
Definition survives (mask labels : list Z) (k : Z) : Prop :=
  ∃ (i : nat) (m : Z), mask !! i = Some m ∧ m ≠ 0 ∧ labels !! i = Some k ∧ k ≠ 0.

(** The background hypothesis: some aligned index is masked out or
    unlabelled, so that 0 is among the suppressed labels. *)
Definition has_background (mask labels : list Z) : Prop :=
  ∃ i : nat, (i < length labels)%nat ∧ (mask !! i = Some 0 ∨ labels !! i = Some 0).

(** ** Strings and paths *)

(** [sub in s] on Python strings. *)
Fixpoint str_in (sub s : string) : bool :=
  if String.prefix sub s then true
  else match s with
       | EmptyString => false
       | String _ s' => str_in sub s'
       end.

(** [s.rfind(c)] for a one-character [c]: the highest index, or -1. *)
Fixpoint rfind_from (c : Ascii.ascii) (s : string) (i found : Z) : Z :=
  match s with
  | EmptyString => found
  | String a s' => rfind_from c s' (i + 1) (if Ascii.eqb a c then i else found)
  end.

Definition rfind (c : Ascii.ascii) (s : string) : Z := rfind_from c s 0 (-1).

(** [p[:n]] and [p[n:]] for [0 <= n]. *)
Fixpoint str_take (n : nat) (s : string) : string :=
  match n, s with
  | S n', String a s' => String a (str_take n' s')
  | _, _ => EmptyString
  end.

Fixpoint str_drop (n : nat) (s : string) : string :=
  match n, s with
  | S n', String _ s' => str_drop n' s'
  | _, _ => s
  end.

(** The [while filenameIndex < dotIndex] loop of [genericpath._splitext]:
    [true] when it leaves through its [return], having met a character
    that is not the extension separator. *)
Fixpoint skip_dots (fuel : nat) (p : string) (extsep : Ascii.ascii)
    (filenameIndex dotIndex : Z) : bool :=
  match fuel with
  | O => false
  | S fuel' =>
      if filenameIndex <? dotIndex then
        match String.get (Z.to_nat filenameIndex) p with
        | Some a =>
            if negb (Ascii.eqb a extsep) then true
            else skip_dots fuel' p extsep (filenameIndex + 1) dotIndex
        | None => true
        end
      else false
  end.

(** Python's [genericpath._splitext(p, sep, altsep, extsep)]. *)
Definition genericpath_splitext (p : string) (sep : Ascii.ascii) (altsep : option Ascii.ascii)
    (extsep : Ascii.ascii) : string * string :=
  let sepIndex := rfind sep p in
  let sepIndex := match altsep with
                  | Some alt => Z.max sepIndex (rfind alt p)
                  | None => sepIndex
                  end in
  let dotIndex := rfind extsep p in
  if (sepIndex <? dotIndex)
     && skip_dots (Z.to_nat (dotIndex - sepIndex)) p extsep (sepIndex + 1) dotIndex
  then (str_take (Z.to_nat dotIndex) p, str_drop (Z.to_nat dotIndex) p)
  else (p, EmptyString).

(** [os.path.splitext]: [ntpath] when [os.name] is ["nt"], [posixpath]
    otherwise. *)
Definition os_path_splitext (os_name : string) (p : string) : string * string :=
  if bool_decide (os_name = "nt"%string)
  then genericpath_splitext p "\" (Some "/"%char) "."
  else genericpath_splitext p "/" None ".".

(** [str.lower] on ASCII letters. *)
Definition ascii_lower (a : Ascii.ascii) : Ascii.ascii :=
  let n := Ascii.nat_of_ascii a in
  if (65 <=? n)%nat && (n <=? 90)%nat then Ascii.ascii_of_nat (n + 32) else a.

Fixpoint str_lower (s : string) : string :=
  match s with
  | EmptyString => EmptyString
  | String a s' => String (ascii_lower a) (str_lower s')
  end.

(** Truth value of a Python string. *)
Definition str_truthy (s : string) : bool := negb (bool_decide (s = EmptyString)).

(** ** The record writer *)

(** Lines 260-271 of [write_spread]: the output name after the extension
    rewriting. *)
Definition write_spread_out_file (os_name : string) (out_file : string) : string :=
  if str_in ".csv" out_file then
    fst (os_path_splitext os_name out_file) +:+ ".csv"
  else if str_in ".tsv" out_file then
    fst (os_path_splitext os_name out_file) +:+ ".csv"
  else if str_in ".txt" out_file then
    fst (os_path_splitext os_name out_file) +:+ ".csv"
  else out_file.

(** A data frame with a [File] and a [ROIs] cell per row. *)
Record DataFrame : Type := mkDataFrame {
  columns : list string;
  rows : list (string * list string)
}.

Inductive open_mode : Type := mode_a | mode_w.

(** [os.path.exists]. *)
Definition path_exists (path : string) : M bool :=
  fun w => (inr (bool_decide (is_Some (files w !! path))), w).

(** What the program takes from its environment. *)
Record Env : Type := mkEnv {
  (** The type of Python floats: thresholds and distances are only handed
      on to the external tools. *)
  float : Type;
  (** [os.name] and [platform.system()]. *)
  os_name : string;
  platform_system : string;
  (** [os.path.abspath]. *)
  abspath : string → string;
  (** pandas' rendering of one data row of a frame as a CSV record. *)
  csv_record : string * list string → string;
  (** What [wb_command -cifti-separate ... -label] and nibabel deliver for
      an atlas file and a structure: the label array of the first map
      and the label table. *)
  gifti_labels : string → string → list Z * gmap Z string;
  (** What [wb_command -cifti-separate ... -metric] and [load_gii_data]
      deliver for a data file and a structure: one value per vertex. *)
  gifti_metric : string → string → list Z;
  (** The module [nifti_roi]: the stand-alone atlas path
      ([load_atlas_data], [load_nii_vol], [get_roi_name]), the atlasquery
      path ([vol_clust]) and the lines [print_atlases] prints. *)
  nro_atlas_rois : string → float → float → string → string → list string;
  nro_vol_clust : string → float → float → Z → list string;
  nro_atlases : list string
}.

Section Program.

Context (E : Env).

(** [DataFrame.to_csv(path, sep=",", header=..., index=False, mode=...)]. *)
Definition to_csv (df : DataFrame) (path : string) (header : bool)
    (mode : open_mode) : M unit :=
  fun w =>
    let old := match mode with
               | mode_a => default [] (files w !! path)
               | mode_w => []
               end in
    let head := if header then [String.concat "," (columns df)] else [] in
    (inr tt, set_files <[path := old ++ head ++ map (csv_record E) (rows df)]> w).

(** [write_spread(file, out_file, roi_list)]. *)
Definition write_spread (file out_file : string) (roi_list : list string) : M string :=
  let out_file := write_spread_out_file (os_name E) out_file in
  let file := abspath E file in
  let df := mkDataFrame ["File"; "ROIs"]%string [(file, roi_list)] in
  e <~ path_exists out_file ;;
  (if e : bool then to_csv df out_file false mode_a
   else to_csv df out_file true mode_w) ;;;
  ret out_file.

(** ** The modality orchestrator *)

(** [load_hemi_labels] and [load_hemi_data]: the arrays are new objects. *)
Definition load_hemi_labels (file wb_struct : string) : M (loc * gmap Z string) :=
  atlas_data <~ newarray (fst (gifti_labels E file wb_struct)) ;;
  ret (atlas_data, snd (gifti_labels E file wb_struct)).

Definition load_hemi_data (file wb_struct : string) : M (list Z) :=
  ret (gifti_metric E file wb_struct).

Definition find_clusters (file left_surf right_surf : string)
    (thresh distance : float E) : M string :=
  ret "clusters.dscalar.nii"%string.

Definition proc_hemi (gii_data gii_atlas wb_struct : string) : M (list string) :=
  ad <~ load_hemi_labels gii_atlas wb_struct ;;
  cluster_data <~ load_hemi_data gii_data wb_struct ;;
  get_roi_name cluster_data (fst ad) (snd ad).

Definition load_vol_data (file : string) (thresh dist : float E) (vol_atlas_num : Z)
    (nii_atlas atlas_info : string) : M (list string) :=
  let vol_data := "data.nii.gz"%string in
  if str_truthy nii_atlas && str_truthy atlas_info
  then ret (nro_atlas_rois E vol_data thresh dist nii_atlas atlas_info)
  else ret (nro_vol_clust E vol_data thresh dist vol_atlas_num).

(** Lines 387-392: the loop over [wb_structs], carrying [roi_list] and
    [tmp_list]. *)
Fixpoint hemi_loop (wb_structs : list string) (cii_data cii_atlas : string)
    (roi_list tmp_list : list string) : M (list string * list string) :=
  match wb_structs with
  | [] => ret (roi_list, tmp_list)
  | wb_struct :: rest =>
      tmp_list <~ proc_hemi cii_data cii_atlas wb_struct ;;
      hemi_loop rest cii_data cii_atlas
        (if bool_decide (length tmp_list = 0%nat) then roi_list
         else roi_list ++ tmp_list)
        tmp_list
  end.

(** Lines 377-402 of [proc_stat_cluster]: the value of [roi_list] when
    the write step is reached. *)
Definition proc_stat_cluster_rois (cii_file cii_atlas left_surf right_surf : string)
    (thresh distance : float E) (vol_atlas_num : Z)
    (nii_atlas atlas_info : string) : M (list string) :=
  cii_data <~ find_clusters cii_file left_surf right_surf thresh distance ;;
  rt <~ hemi_loop ["CORTEX_LEFT"; "CORTEX_RIGHT"]%string cii_data cii_atlas [] [] ;;
  tmp_list <~ (if negb (bool_decide (str_lower (platform_system E) = "windows"%string))
               then load_vol_data cii_file thresh distance vol_atlas_num
                      nii_atlas atlas_info
               else ret (snd rt)) ;;
  ret (if bool_decide (length tmp_list = 0%nat) then fst rt
       else fst rt ++ tmp_list).

(** [proc_stat_cluster]. *)
Definition proc_stat_cluster (cii_file cii_atlas out_file left_surf right_surf : string)
    (thresh distance : float E) (vol_atlas_num : Z)
    (nii_atlas atlas_info : string) : M string :=
  roi_list <~ proc_stat_cluster_rois cii_file cii_atlas left_surf right_surf
                thresh distance vol_atlas_num nii_atlas atlas_info ;;
  if negb (bool_decide (length roi_list = 0%nat))
  then write_spread cii_file out_file roi_list
  else ret out_file.

(** ** The command line *)

(** The [argparse] namespace: an option that was not given is [None]. *)
Record Args : Type := mkArgs {
  arg_cii_file : option string;
  arg_out_file : option string;
  arg_left_gii : option string;
  arg_right_gii : option string;
  arg_cii_atlas : option string;
  arg_vol_atlas_num : option Z;
  arg_vol_atlas : option string;
  arg_vol_info : option string;
  arg_thresh : float E;
  arg_dist : float E;
  arg_dump_vol_atlases : bool
}.

(** Truth value of an optional string and of an optional integer. *)
Definition truthy (o : option string) : bool :=
  match o with
  | Some s => str_truthy s
  | None => false
  end.

Definition truthy_int (o : option Z) : bool :=
  match o with
  | Some n => negb (n =? 0)
  | None => false
  end.

Definition print (line : string) : M unit :=
  fun w => (inr tt, set_stdout (fun out => out ++ [line]) w).

Definition print_atlases : M unit :=
  fun w => (inr tt, set_stdout (fun out => out ++ nro_atlases E) w).

(** Lines 519-534: the body run after the arguments are parsed. *)
Definition main (args : Args) : M unit :=
  if arg_dump_vol_atlases args then print_atlases
  else if truthy (arg_cii_file args) && truthy (arg_out_file args)
          && truthy (arg_left_gii args) && truthy (arg_right_gii args)
          && truthy (arg_cii_atlas args) then
    if truthy (arg_vol_atlas args) && truthy (arg_vol_info args) then
      proc_stat_cluster (default "" (arg_cii_file args)) (default "" (arg_cii_atlas args))
        (default "" (arg_out_file args)) (default "" (arg_left_gii args))
        (default "" (arg_right_gii args)) (arg_thresh args) (arg_dist args) 4
        (default "" (arg_vol_atlas args)) (default "" (arg_vol_info args)) ;;;
      ret tt
    else if truthy_int (arg_vol_atlas_num args) then
      proc_stat_cluster (default "" (arg_cii_file args)) (default "" (arg_cii_atlas args))
        (default "" (arg_out_file args)) (default "" (arg_left_gii args))
        (default "" (arg_right_gii args)) (arg_thresh args) (arg_dist args)
        (default 0 (arg_vol_atlas_num args)) "" "" ;;;
      ret tt
    else ret tt
  else
    print "" ;;;
    print "Not all valid options were specified. Please see help menu for details." ;;;
    print "" ;;;
    raise (SystemExit 1).

(** The exit status of the process for an outcome of [main]. *)
Definition exit_status (r : exn + unit) : Z :=
  match r with
  | inr _ => 0
  | inl (SystemExit code) => code
  | inl _ => 1
  end.

End Program.

(** ** Sample data *)

(** A world whose only array, at reference 0, holds [labels]. *)
Definition w0 (labels : list Z) : World := mkWorld {[ 0%nat := labels ]} ∅ [].

(** The label table of the specification's ordering example. *)
Definition table_abc : gmap Z string :=
  <[5 := "A"%string]> (<[2 := "B"%string]> (<[9 := "C"%string]> ∅)).

(** An environment for examples: [platform] is what [platform.system()]
    answers, [mask] the cluster values per structure, [vol] what the
    volumetric lookup returns.  The left atlas labels three vertices
    0, 1, 1 with 1 = "Frontal"; the right atlas labels two vertices 0, 7
    with 7 = "Insula". *)
Definition sample_labels (file wb_struct : string) : list Z * gmap Z string :=
  if bool_decide (wb_struct = "CORTEX_LEFT"%string)
  then ([0; 1; 1], {[ 1 := "Frontal"%string ]})
  else ([0; 7], {[ 7 := "Insula"%string ]}).

Definition sample_env (platform : string) (mask : string → list Z)
    (vol : list string) : Env :=
  mkEnv unit
    (if bool_decide (platform = "Windows"%string) then "nt" else "posix")
    platform
    (fun file => (if bool_decide (platform = "Windows"%string)
                  then "C:\data\" else "/data/") +:+ file)
    (fun r => fst r +:+ "," +:+ String.concat ";" (snd r))
    sample_labels
    (fun file wb_struct => mask wb_struct)
    (fun _ _ _ _ _ => vol)
    (fun _ _ _ _ => vol)
    ["1: Harvard-Oxford"%string].

(** Cluster values: nothing on the left, the labelled vertex on the right. *)
Definition mask_right_only (wb_struct : string) : list Z :=
  if bool_decide (wb_struct = "CORTEX_LEFT"%string) then [0; 0; 0] else [0; 1].

(** Cluster values: a labelled vertex on either side. *)
Definition mask_both (wb_struct : string) : list Z :=
  if bool_decide (wb_struct = "CORTEX_LEFT"%string) then [0; 0; 1] else [0; 1].

(** Cluster values: nothing anywhere. *)
Definition mask_none (wb_struct : string) : list Z :=
  if bool_decide (wb_struct = "CORTEX_LEFT"%string) then [0; 0; 0] else [0; 0].

Definition world_empty : World := mkWorld ∅ ∅ [].

(** Arguments with the five required options and no volumetric option. *)
Definition sample_args (E : Env) (thresh dist : float E) : Args E :=
  mkArgs E (Some "stats.dscalar.nii"%string) (Some "out.csv"%string)
    (Some "L.surf.gii"%string) (Some "R.surf.gii"%string)
    (Some "atlas.dlabel.nii"%string) None None None thresh dist false.

(** ** Reference notions for the orchestrator *)

(** What [load_vol_data] returns. *)
Definition vol_rois (E : Env) (thresh dist : float E) (vol_atlas_num : Z)
    (nii_atlas atlas_info : string) : list string :=
  if str_truthy nii_atlas && str_truthy atlas_info
  then nro_atlas_rois E "data.nii.gz" thresh dist nii_atlas atlas_info
  else nro_vol_clust E "data.nii.gz" thresh dist vol_atlas_num.

(** A computation that leaves the files and the standard output alone. *)
Definition frames {A} (m : M A) : Prop :=
  ∀ w, files (snd (m w)) = files w ∧ stdout (snd (m w)) = stdout w.

(** A computation that writes no array but the one behind [a], and one
    that leaves every array that existed before it as it was. *)
Definition only_writes {A} (a : loc) (m : M A) : Prop :=
  ∀ w b, b ≠ a → arrays (snd (m w)) !! b = arrays w !! b.



(** Arguments without the atlas option. *)
Definition sample_args_no_atlas (E : Env) (thresh dist : float E) : Args E :=
  mkArgs E (Some "stats.dscalar.nii"%string) (Some "out.csv"%string)
    (Some "L.surf.gii"%string) (Some "R.surf.gii"%string)
    None (Some 4) None None thresh dist false.

(** ** GIFTI data as numpy arrays *)

(** The exceptions of [load_gii_data]. *)
Inductive np_exn : Type :=
  | NpIndexError
  | NpValueError.

Section Numpy.

Context {A : Type}.

(** numpy arrays of one or two dimensions.  A two-dimensional array
    carries its number of columns, so that the shapes (r, 0) and (0, c)
    are told apart. *)
Inductive ndarray : Type :=
  | Arr1 (v : list A)
  | Arr2 (ncols : nat) (rows : list (list A)).

(** [a.shape]. *)
Definition np_shape (a : ndarray) : list nat :=
  match a with
  | Arr1 v => [length v]
  | Arr2 c rows => [length rows; c]
  end.

(** [np.atleast_2d]: a one-dimensional array becomes a single row. *)
Definition np_atleast_2d (a : ndarray) : nat * list (list A) :=
  match a with
  | Arr1 v => (length v, [v])
  | Arr2 c rows => (c, rows)
  end.

(** [np.vstack((a, b))]: both made two-dimensional and joined row after
    row; the numbers of columns must agree. *)
Definition np_vstack (a b : ndarray) : np_exn + ndarray :=
  let '(c1, r1) := np_atleast_2d a in
  let '(c2, r2) := np_atleast_2d b in
  if bool_decide (c1 = c2) then inr (Arr2 c1 (r1 ++ r2)) else inl NpValueError.

(** [np.transpose]: nothing for one dimension, rows and columns swapped
    for two. *)
Definition np_transpose (a : ndarray) : ndarray :=
  match a with
  | Arr1 v => Arr1 v
  | Arr2 c rows => Arr2 (length rows) ((λ j, omap (λ r, r !! j) rows) <$> seq 0 c)
  end.

(** [a.reshape(a.shape[0], 1)] of a one-dimensional array. *)
Definition np_reshape_col (a : ndarray) : ndarray :=
  match a with
  | Arr1 v => Arr2 1 ((λ x, [x]) <$> v)
  | Arr2 c rows => Arr2 c rows
  end.

(** A GIFTI data array: its intent and its data. *)
Record GiftiDataArray : Type := mkDataArray {
  da_intent : string;
  da_data : ndarray
}.

(** [img.get_arrays_from_intent(intent)] on the data arrays of an image. *)
Definition get_arrays_from_intent (darrays : list GiftiDataArray) (intent : string)
    : list GiftiDataArray :=
  filter (λ x, da_intent x = intent) darrays.

(** Lines 141-142: [for da in range(1,num_da)], stacking array [da] of
    the intent under [data]. *)
Fixpoint vstack_loop (arrs : list GiftiDataArray) (das : list nat) (data : ndarray)
    : np_exn + ndarray :=
  match das with
  | [] => inr data
  | da :: rest =>
      match arrs !! da with
      | None => inl NpIndexError
      | Some x =>
          match np_vstack data (da_data x) with
          | inl e => inl e
          | inr data' => vstack_loop arrs rest data'
          end
      end
  end.

(** [load_gii_data(file, intent)] on the data arrays of the image that
    [nib.load(file)] delivers. *)
Definition load_gii_data (darrays : list GiftiDataArray) (intent : string)
    : np_exn + ndarray :=
  let num_da := length darrays in
  match get_arrays_from_intent darrays intent !! 0%nat with
  | None => inl NpIndexError
  | Some array1 =>
      match (if bool_decide (1 ≤ num_da)%nat
             then vstack_loop (get_arrays_from_intent darrays intent)
                    (seq 1 (num_da - 1)) (da_data array1)
             else inr (da_data array1)) with
      | inl e => inl e
      | inr data =>
          let data := np_transpose data in
          inr (if bool_decide (length (np_shape data) = 1%nat)
               then np_reshape_col data else data)
      end
  end.

End Numpy.

(** * Properties *)

Example np_unique_ex : np_unique [9; 0; 2; 5; 2; 0; 9] = [0; 2; 5; 9].
Proof. reflexivity. Qed.

Example mask_out_ex : mask_out [0; 3; 0; 1] [4; 5; 0; 6] = [0; 5; 0; 6].
Proof. reflexivity. Qed.

(** The ascending-order example of the specification: ids 9, 2 and 5
    survive, 7 is masked out. *)
Example get_roi_name_ex :
  fst (get_roi_name [1; 1; 1; 0] 0%nat table_abc (w0 [9; 2; 5; 7]))
  = inr ["B"; "A"; "C"]%string.
Proof. vm_compute. reflexivity. Qed.

(** A mask longer than the labels, with a zero past their end. *)
Example get_roi_name_index_error :
  fst (get_roi_name [1; 0] 0%nat ∅ (w0 [3])) = inl IndexError.
Proof. vm_compute. reflexivity. Qed.

(** ** The world as a record *)

Lemma world_eta (w : World) : mkWorld (arrays w) (files w) (stdout w) = w.
Proof. by destruct w. Qed.

Lemma set_arrays_id (w : World) (a : loc) (l : list Z) :
  arrays w !! a = Some l → set_arrays <[a := l]> w = w.
Proof.
  intros Ha. unfold set_arrays. rewrite insert_id by done. apply world_eta.
Qed.

Lemma set_arrays_twice (w : World) (a : loc) (l1 l2 : list Z) :
  set_arrays <[a := l2]> (set_arrays <[a := l1]> w) = set_arrays <[a := l2]> w.
Proof. unfold set_arrays; simpl. by rewrite insert_insert_eq. Qed.

(** ** [np.unique] *)

Lemma insert_unique_elem (x y : Z) (l : list Z) :
  x ∈ insert_unique y l ↔ x = y ∨ x ∈ l.
Proof.
  induction l as [|z l IH]; simpl.
  - rewrite elem_of_cons. tauto.
  - destruct (Z.ltb_spec y z) as [Hlt|Hge].
    + rewrite (elem_of_cons (z :: l)). tauto.
    + destruct (Z.eqb_spec y z) as [->|Hne].
      * rewrite elem_of_cons. tauto.
      * rewrite !elem_of_cons, IH. tauto.
Qed.

Lemma insert_unique_sorted (x : Z) (l : list Z) :
  StronglySorted Z.lt l → StronglySorted Z.lt (insert_unique x l).
Proof.
  induction l as [|z l IH]; simpl; intros Hs.
  - repeat constructor.
  - apply StronglySorted_inv in Hs as [Hl Hz].
    destruct (Z.ltb_spec x z) as [Hlt|Hge].
    + constructor; [by constructor|].
      constructor; [done|].
      eapply Forall_impl; [exact Hz|]. intros; simpl in *; lia.
    + destruct (Z.eqb_spec x z) as [->|Hne].
      * by constructor.
      * constructor; [by apply IH|].
        rewrite Forall_forall. intros k Hk.
        apply insert_unique_elem in Hk as [->|Hk]; [lia|].
        rewrite Forall_forall in Hz. by apply Hz.
Qed.

Lemma np_unique_elem (x : Z) (l : list Z) : x ∈ np_unique l ↔ x ∈ l.
Proof.
  unfold np_unique. induction l as [|y l IH]; simpl; [done|].
  rewrite insert_unique_elem, IH, elem_of_cons. tauto.
Qed.

Lemma np_unique_sorted (l : list Z) : StronglySorted Z.lt (np_unique l).
Proof.
  unfold np_unique. induction l as [|y l IH]; simpl.
  - constructor.
  - by apply insert_unique_sorted.
Qed.

(** When 0 occurs and nothing is negative, 0 is the first of the sorted
    unique values: dropping the first drops exactly the background. *)
Lemma np_unique_zero_first (l : list Z) :
  0 ∈ l → Forall (Z.le 0) l →
  ∃ ids, np_unique l = 0 :: ids
         ∧ StronglySorted Z.lt ids
         ∧ ∀ k, k ∈ ids ↔ k ∈ l ∧ k ≠ 0.
Proof.
  intros H0 Hnn.
  pose proof (np_unique_sorted l) as Hs.
  pose proof (np_unique_elem 0 l) as Hz. apply Hz in H0. clear Hz.
  destruct (np_unique l) as [|h ids] eqn:Hu; [by apply elem_of_nil in H0|].
  apply StronglySorted_inv in Hs as [Hids Hh].
  rewrite Forall_forall in Hh, Hnn.
  assert (h = 0) as ->.
  { apply elem_of_cons in H0 as [->|H0]; [done|].
    specialize (Hh _ H0).
    assert (h ∈ l) as Hhl by (apply np_unique_elem; rewrite Hu; left).
    specialize (Hnn _ Hhl). lia. }
  exists ids. split; [done|]. split; [done|].
  intros k. split.
  - intros Hk. split.
    + apply np_unique_elem. rewrite Hu. by right.
    + specialize (Hh _ Hk). lia.
  - intros [Hk Hne]. apply np_unique_elem in Hk. rewrite Hu in Hk.
    apply elem_of_cons in Hk as [->|Hk]; done.
Qed.

(** ** Suppression *)

Lemma mask_out_length (mask labels : list Z) :
  length (mask_out mask labels) = length labels.
Proof.
  revert labels. induction mask as [|m mask IH]; intros [|l labels]; simpl; auto.
Qed.

Lemma mask_out_lookup (mask labels : list Z) (i : nat) (l : Z) :
  labels !! i = Some l →
  mask_out mask labels !! i = Some (if bool_decide (mask !! i = Some 0) then 0 else l).
Proof.
  revert labels i. induction mask as [|m mask IH]; intros labels i Hl.
  - rewrite bool_decide_eq_false_2 by done. by destruct labels.
  - destruct labels as [|l' labels]; [done|].
    destruct i as [|i]; simpl in *.
    + injection Hl as ->. f_equal.
      destruct (decide (m = 0)) as [->|Hne].
      * by rewrite !bool_decide_eq_true_2.
      * rewrite !bool_decide_eq_false_2; [done| |done]. congruence.
    + by apply IH.
Qed.

(** The elements of the suppressed array when mask and labels are
    aligned: 0 for every masked or unlabelled index, and the labels that
    survive. *)
Lemma mask_out_elem (mask labels : list Z) (k : Z) :
  length mask = length labels → k ≠ 0 →
  k ∈ mask_out mask labels ↔ survives mask labels k.
Proof.
  intros Hlen Hk. unfold survives. split.
  - intros Hin. apply list_elem_of_lookup in Hin as [i Hi].
    assert (i < length labels)%nat as Hlt.
    { rewrite <- (mask_out_length mask). eauto using lookup_lt_Some. }
    destruct (lookup_lt_is_Some_2 labels i Hlt) as [l Hl].
    destruct (lookup_lt_is_Some_2 mask i ltac:(lia)) as [m Hm].
    rewrite (mask_out_lookup _ _ _ _ Hl) in Hi.
    case_bool_decide as Hz; [congruence|].
    exists i, m. repeat split; [done| |congruence|done].
    intros ->. by apply Hz.
  - intros (i & m & Hm & Hmz & Hl & _).
    apply list_elem_of_lookup. exists i.
    rewrite (mask_out_lookup _ _ _ _ Hl).
    rewrite bool_decide_eq_false_2; [done|congruence].
Qed.

Lemma mask_out_nonneg (mask labels : list Z) :
  Forall (Z.le 0) labels → Forall (Z.le 0) (mask_out mask labels).
Proof.
  revert labels. induction mask as [|m mask IH]; intros [|l labels] Hnn; simpl; try done.
  apply Forall_cons in Hnn as [Hl Hnn].
  constructor; [case_bool_decide; lia|by apply IH].
Qed.

Lemma mask_out_zero (mask labels : list Z) (i : nat) :
  (i < length labels)%nat →
  mask !! i = Some 0 ∨ labels !! i = Some 0 →
  0 ∈ mask_out mask labels.
Proof.
  intros Hlt Hz. destruct (lookup_lt_is_Some_2 labels i Hlt) as [l Hl].
  apply list_elem_of_lookup. exists i.
  rewrite (mask_out_lookup _ _ _ _ Hl).
  case_bool_decide; [done|]. destruct Hz as [Hz|Hz]; congruence.
Qed.

(** The loop writes the suppressed labels into the array it is given. *)
Lemma suppress_loop_run (mask : list Z) (a : loc) :
  ∀ (idx : nat) (pre labels : list Z) (w : World),
    arrays w !! a = Some (pre ++ labels) →
    length pre = idx →
    (length mask ≤ length labels)%nat →
    suppress_loop mask idx a w
    = (inr tt, set_arrays <[a := pre ++ mask_out mask labels]> w).
Proof.
  induction mask as [|m mask IH]; intros idx pre labels w Ha Hpre Hlen; simpl.
  - unfold ret. f_equal. symmetry. apply set_arrays_id.
    by destruct labels.
  - destruct labels as [|l labels]; simpl in Hlen; [lia|].
    unfold bind. case_bool_decide as Hm.
    + unfold setitem. rewrite Ha.
      rewrite bool_decide_eq_true_2 by (rewrite length_app; simpl; lia).
      assert (<[idx := 0]> (pre ++ l :: labels) = (pre ++ [0]) ++ labels) as ->.
      { subst idx. rewrite insert_app_r_alt by lia.
        rewrite Nat.sub_diag. simpl. by rewrite <- app_assoc. }
      rewrite (IH (S idx) (pre ++ [0]) labels); first last.
      * lia.
      * rewrite length_app. simpl. lia.
      * simpl. apply lookup_insert_eq.
      * rewrite set_arrays_twice. by rewrite <- app_assoc.
    + unfold ret.
      rewrite (IH (S idx) (pre ++ [l]) labels); first last.
      * lia.
      * rewrite length_app. simpl. lia.
      * by rewrite <- app_assoc.
      * by rewrite <- app_assoc.
Qed.

(** A zero of the mask at an index the array does not have stops the
    loop with [IndexError]. *)
Lemma suppress_loop_index_error (mask : list Z) (a : loc) :
  ∀ (i idx : nat) (l : list Z) (w : World),
    arrays w !! a = Some l →
    mask !! i = Some 0 →
    (length l ≤ idx + i)%nat →
    fst (suppress_loop mask idx a w) = inl IndexError.
Proof.
  induction mask as [|m mask IH]; intros i idx l w Ha Hi Hlen; [done|].
  simpl. unfold bind. destruct i as [|i]; simpl in Hi.
  - injection Hi as ->. rewrite bool_decide_eq_true_2 by done.
    unfold setitem. rewrite Ha.
    by rewrite bool_decide_eq_false_2 by lia.
  - case_bool_decide as Hm.
    + unfold setitem. rewrite Ha. case_bool_decide as Hidx; [|done].
      apply (IH i (S idx) (<[idx := 0]> l)); [|done|].
      * simpl. apply lookup_insert_eq.
      * rewrite length_insert. lia.
    + unfold ret. apply (IH i (S idx) l); [done|done|lia].
Qed.

(** X4.  A zero of the mask at an index past the end of the labels:
    the resolver raises [IndexError]; no name is looked up. *)
Lemma get_roi_name_index_error_past_end (mask : list Z) (a : loc)
    (d : gmap Z string) (labels : list Z) (w : World) (i : nat) :
  arrays w !! a = Some labels →
  mask !! i = Some 0 →
  (length labels ≤ i)%nat →
  fst (get_roi_name mask a d w) = inl IndexError.
Proof.
  intros Ha Hi Hlen. unfold get_roi_name, bind.
  pose proof (suppress_loop_index_error mask a i 0 labels w Ha Hi ltac:(lia)) as He.
  destruct (suppress_loop mask 0 a w) as [[e|[]] w1]; simpl in He; [|done].
  by injection He as ->.
Qed.

(** ** The lookup loop *)

Lemma lookup_loop_ok (ids : list Z) (d : gmap Z string) :
  ∀ (acc names : list string) (w : World),
    Forall2 (λ k n, d !! k = Some n) ids names →
    lookup_loop ids d acc w = (inr (acc ++ names), w).
Proof.
  induction ids as [|k ids IH]; intros acc names w HF.
  - apply Forall2_nil_inv_l in HF as ->. simpl. by rewrite app_nil_r.
  - apply Forall2_cons_inv_l in HF as (n & names' & Hk & HF & ->).
    simpl. rewrite Hk. rewrite (IH _ _ _ HF). by rewrite <- app_assoc.
Qed.

Lemma lookup_loop_missing (ids : list Z) (d : gmap Z string) :
  ∀ (acc : list string) (w : World) (k : Z),
    k ∈ ids → d !! k = None →
    ∃ k', k' ∈ ids ∧ d !! k' = None ∧ lookup_loop ids d acc w = (inl (KeyError k'), w).
Proof.
  induction ids as [|i ids IH]; intros acc w k Hin Hk.
  - by apply elem_of_nil in Hin.
  - simpl. destruct (d !! i) as [n|] eqn:Hi.
    + apply elem_of_cons in Hin as [->|Hin]; [congruence|].
      destruct (IH (acc ++ [n]) w k Hin Hk) as (k' & Hk' & Hd & Hrun).
      exists k'. split; [by right|]. done.
    + exists i. split; [by left|]. done.
Qed.

Lemma lookup_all (ids : list Z) (d : gmap Z string) :
  (∀ k, k ∈ ids → is_Some (d !! k)) →
  ∃ names, Forall2 (λ k n, d !! k = Some n) ids names.
Proof.
  induction ids as [|k ids IH]; intros Hall.
  - exists []. constructor.
  - destruct (Hall k ltac:(left)) as [n Hn].
    destruct IH as [names HF]; [intros; apply Hall; by right|].
    exists (n :: names). by constructor.
Qed.

(** ** The resolver as a whole *)

(** With at least as many labels as mask values the resolver suppresses
    in place and then looks up all but the first of the sorted unique
    values. *)
Lemma get_roi_name_run (mask : list Z) (a : loc) (d : gmap Z string)
    (labels : list Z) (w : World) :
  arrays w !! a = Some labels →
  (length mask ≤ length labels)%nat →
  get_roi_name mask a d w
  = lookup_loop (drop 1 (np_unique (mask_out mask labels))) d []
      (set_arrays <[a := mask_out mask labels]> w).
Proof.
  intros Ha Hlen. unfold get_roi_name, bind.
  rewrite (suppress_loop_run mask a 0 [] labels w Ha eq_refl Hlen). simpl.
  unfold getarray. simpl. by rewrite lookup_insert_eq.
Qed.

(** With aligned inputs, no negative label and some background, the
    resolver looks up exactly the surviving ids, in ascending order. *)
Lemma get_roi_name_ids (mask : list Z) (a : loc) (d : gmap Z string)
    (labels : list Z) (w : World) :
  arrays w !! a = Some labels →
  length mask = length labels →
  Forall (Z.le 0) labels →
  has_background mask labels →
  ∃ ids, StronglySorted Z.lt ids
         ∧ (∀ k, k ∈ ids ↔ survives mask labels k)
         ∧ get_roi_name mask a d w
           = lookup_loop ids d [] (set_arrays <[a := mask_out mask labels]> w).
Proof.
  intros Ha Hlen Hnn (i & Hi & Hz).
  destruct (np_unique_zero_first (mask_out mask labels)) as (ids & Hu & Hs & Hids).
  { by eapply mask_out_zero. }
  { by apply mask_out_nonneg. }
  exists ids. split; [done|]. split.
  - intros k. rewrite Hids. split.
    + intros [Hk Hne]. by apply mask_out_elem.
    + intros Hk. assert (k ≠ 0) as Hne by (by destruct Hk as (? & ? & ? & ? & ? & ?)).
      split; [by apply mask_out_elem|done].
  - rewrite (get_roi_name_run mask a d labels w Ha) by lia.
    by rewrite Hu.
Qed.

Lemma StronglySorted_lt_NoDup (ids : list Z) : StronglySorted Z.lt ids → NoDup ids.
Proof.
  induction 1 as [|k ids Hs IH Hk]; constructor; [|done].
  intros Hin. rewrite Forall_forall in Hk. specialize (Hk _ Hin). lia.
Qed.

Lemma names_NoDup (d : gmap Z string) (ids : list Z) (rois : list string) :
  Forall2 (λ k n, d !! k = Some n) ids rois →
  NoDup ids →
  (∀ j k n, j ∈ ids → k ∈ ids → d !! j = Some n → d !! k = Some n → j = k) →
  NoDup rois.
Proof.
  induction 1 as [|k n ids rois Hk HF IH]; intros Hnd Hinj; [constructor|].
  apply NoDup_cons in Hnd as [Hnotin Hnd].
  constructor.
  - intros Hin. apply list_elem_of_lookup in Hin as [i Hi].
    destruct (Forall2_lookup_r _ _ _ _ _ HF Hi) as (j & Hj & Hdj).
    assert (j ∈ ids) as Hjin by (apply list_elem_of_lookup; eauto).
    assert (j = k) as -> by (apply (Hinj j k n); [by right|by left|done|done]).
    done.
  - apply IH; [done|]. intros j k' n' Hj Hk'. apply Hinj; by right.
Qed.

Lemma names_elem (d : gmap Z string) (ids : list Z) (rois : list string) (n : string) :
  Forall2 (λ k n, d !! k = Some n) ids rois →
  n ∈ rois ↔ ∃ k, k ∈ ids ∧ d !! k = Some n.
Proof.
  intros HF. split.
  - intros Hin. apply list_elem_of_lookup in Hin as [i Hi].
    destruct (Forall2_lookup_r _ _ _ _ _ HF Hi) as (k & Hk & Hdk).
    exists k. split; [apply list_elem_of_lookup; eauto|done].
  - intros (k & Hin & Hdk). apply list_elem_of_lookup in Hin as [i Hi].
    destruct (Forall2_lookup_l _ _ _ _ _ HF Hi) as (n' & Hn' & Hdn').
    assert (n' = n) as -> by congruence.
    apply list_elem_of_lookup; eauto.
Qed.

Lemma lookup_loop_inv (ids : list Z) (d : gmap Z string) (acc rois : list string)
    (w w' : World) :
  lookup_loop ids d acc w = (inr rois, w') →
  ∃ names, Forall2 (λ k n, d !! k = Some n) ids names ∧ rois = acc ++ names ∧ w' = w.
Proof.
  revert acc. induction ids as [|k ids IH]; intros acc; simpl.
  - intros [= <- <-]. exists []. by rewrite app_nil_r.
  - destruct (d !! k) as [n|] eqn:Hk; [|done].
    intros Hrun. apply IH in Hrun as (names & HF & -> & ->).
    exists (n :: names). split; [by constructor|]. by rewrite <- app_assoc.
Qed.

(** X21.  For aligned inputs without negative ids and with some
    background, a returned list names exactly the labels that occur
    inside a cluster: a name is in it if and only if it is the table's
    name of a nonzero label at an index with a nonzero mask value. *)
Lemma get_roi_name_names_iff (mask : list Z) (a : loc) (d : gmap Z string)
    (labels : list Z) (w w' : World) (rois : list string) :
  arrays w !! a = Some labels →
  length mask = length labels →
  Forall (Z.le 0) labels →
  has_background mask labels →
  get_roi_name mask a d w = (inr rois, w') →
  ∀ n, n ∈ rois ↔ ∃ k, survives mask labels k ∧ d !! k = Some n.
Proof.
  intros Ha Hlen Hnn Hbg Hrun n.
  destruct (get_roi_name_ids mask a d labels w Ha Hlen Hnn Hbg) as (ids & _ & Hids & Heq).
  rewrite Heq in Hrun. apply lookup_loop_inv in Hrun as (names & HF & -> & _).
  simpl. rewrite (names_elem d ids names n HF).
  split; intros (k & Hk & Hdk); exists k; (split; [by apply Hids|done]).
Qed.

(** In the same setting, a surviving id without a table entry makes the
    resolver raise [KeyError]. *)
Lemma get_roi_name_missing_fails (mask : list Z) (a : loc) (d : gmap Z string)
    (labels : list Z) (w : World) (k : Z) :
  arrays w !! a = Some labels →
  length mask = length labels →
  Forall (Z.le 0) labels →
  has_background mask labels →
  survives mask labels k → d !! k = None →
  ∃ k', survives mask labels k' ∧ d !! k' = None
        ∧ fst (get_roi_name mask a d w) = inl (KeyError k').
Proof.
  intros Ha Hlen Hnn Hbg Hk Hd.
  destruct (get_roi_name_ids mask a d labels w Ha Hlen Hnn Hbg) as (ids & _ & Hids & Heq).
  apply Hids in Hk.
  destruct (lookup_loop_missing ids d [] (set_arrays <[a := mask_out mask labels]> w) k Hk Hd)
    as (k' & Hk' & Hd' & Hrun).
  exists k'. split; [by apply Hids|]. split; [done|].
  by rewrite Heq, Hrun.
Qed.

(** Without background the first of the sorted unique values is a real
    label, and it is the one the resolver leaves out. *)
Lemma get_roi_name_no_background (mask : list Z) (a : loc) (d : gmap Z string)
    (labels : list Z) (w : World) :
  arrays w !! a = Some labels →
  length mask = length labels →
  labels ≠ [] →
  0 ∉ mask_out mask labels →
  ∃ k ids, survives mask labels k ∧ (k ∉ ids)
           ∧ get_roi_name mask a d w
             = lookup_loop ids d [] (set_arrays <[a := mask_out mask labels]> w).
Proof.
  intros Ha Hlen Hne H0.
  rewrite (get_roi_name_run mask a d labels w Ha) by lia.
  pose proof (np_unique_sorted (mask_out mask labels)) as Hs.
  destruct (np_unique (mask_out mask labels)) as [|k ids] eqn:Hu.
  - exfalso.
    assert (length (mask_out mask labels) ≠ 0%nat) as Hl.
    { rewrite mask_out_length. by destruct labels. }
    destruct (mask_out mask labels) as [|x ml]; [done|].
    assert (x ∈ np_unique (x :: ml)) as Hin by (apply np_unique_elem; left).
    rewrite Hu in Hin. by apply elem_of_nil in Hin.
  - exists k, ids. simpl.
    assert (k ∈ mask_out mask labels) as Hk.
    { apply np_unique_elem. rewrite Hu. left. }
    assert (k ≠ 0) as Hk0 by (intros ->; done).
    split; [by apply mask_out_elem|]. split; [|done].
    apply StronglySorted_inv in Hs as [_ Hlt]. rewrite Forall_forall in Hlt.
    intros Hin. specialize (Hlt _ Hin). lia.
Qed.

(** *** Claims on the resolver *)

(** C1, evaluated where it fails.  One vertex, inside a cluster
    (mask 1), labelled 3, and 3 is in the table as "A": the index
    qualifies, yet the returned list is empty, because [[1:]] removed the
    only sorted unique value, which was not the background. *)
Theorem get_roi_name_drops_lowest_id :
  survives [1] [3] 3
  ∧ ({[ 3 := "A"%string ]} : gmap Z string) !! 3 = Some "A"%string
  ∧ fst (get_roi_name [1] 0%nat {[ 3 := "A"%string ]} (w0 [3])) = inr [].
Proof.
  split; [|split].
  - exists 0%nat, 1. by repeat split.
  - by vm_compute.
  - by vm_compute.
Qed.

(** C2, refuted: a masked-out vertex labelled 3.  After the call the
    caller's array, still at reference 0, holds 0 instead of 3. *)
Lemma get_roi_name_mutates_labels :
  arrays (w0 [3]) !! 0%nat = Some [3]
  ∧ fst (get_roi_name [0] 0%nat ∅ (w0 [3])) = inr []
  ∧ arrays (snd (get_roi_name [0] 0%nat ∅ (w0 [3]))) !! 0%nat = Some [0]
  ∧ arrays (snd (get_roi_name [0] 0%nat ∅ (w0 [3]))) !! 0%nat ≠ arrays (w0 [3]) !! 0%nat.
Proof.
  split; [by vm_compute|]. split; [by vm_compute|]. split; [by vm_compute|].
  vm_compute. discriminate.
Qed.

(** C2, amended: [get_roi_name] suppresses in place.  Given at least as
    many labels as mask values, when it finishes (returning, or raising
    [KeyError]) the caller's array holds 0 at every index whose mask
    value is 0 and its former label at every other index; every other
    array, the files and the standard output are as before. *)
Theorem get_roi_name_suppresses_in_place (mask : list Z) (a : loc)
    (d : gmap Z string) (labels : list Z) (w : World) :
  arrays w !! a = Some labels →
  (length mask ≤ length labels)%nat →
  ∃ after,
    arrays (snd (get_roi_name mask a d w)) !! a = Some after
    ∧ length after = length labels
    ∧ (∀ i l, labels !! i = Some l →
              after !! i = Some (if bool_decide (mask !! i = Some 0) then 0 else l))
    ∧ (∀ b, b ≠ a → arrays (snd (get_roi_name mask a d w)) !! b = arrays w !! b)
    ∧ files (snd (get_roi_name mask a d w)) = files w
    ∧ stdout (snd (get_roi_name mask a d w)) = stdout w.
Proof.
  intros Ha Hlen. exists (mask_out mask labels).
  rewrite (get_roi_name_run mask a d labels w Ha Hlen).
  set (w1 := set_arrays <[a := mask_out mask labels]> w).
  assert (snd (lookup_loop (drop 1 (np_unique (mask_out mask labels))) d [] w1) = w1) as ->.
  { generalize (drop 1 (np_unique (mask_out mask labels))) (@nil string).
    intros ids. induction ids as [|k ids IH]; intros acc; simpl; [done|].
    destruct (d !! k); [apply IH|done]. }
  subst w1. simpl. split; [apply lookup_insert_eq|].
  split; [apply mask_out_length|].
  split; [intros i l; apply mask_out_lookup|].
  split; [|done]. intros b Hb. by apply lookup_insert_ne.
Qed.

Lemma get_roi_name_suppresses_in_place_witness :
  ∃ after,
    arrays (snd (get_roi_name [0; 1] 0%nat ∅ (w0 [3; 0]))) !! 0%nat = Some after
    ∧ length after = length [3; 0]
    ∧ (∀ i l, [3; 0] !! i = Some l →
              after !! i = Some (if bool_decide ([0; 1] !! i = Some 0) then 0 else l))
    ∧ (∀ b, b ≠ 0%nat →
            arrays (snd (get_roi_name [0; 1] 0%nat ∅ (w0 [3; 0]))) !! b = arrays (w0 [3; 0]) !! b)
    ∧ files (snd (get_roi_name [0; 1] 0%nat ∅ (w0 [3; 0]))) = files (w0 [3; 0])
    ∧ stdout (snd (get_roi_name [0; 1] 0%nat ∅ (w0 [3; 0]))) = stdout (w0 [3; 0]).
Proof.
  apply (get_roi_name_suppresses_in_place [0; 1] 0%nat ∅ [3; 0] (w0 [3; 0])).
  - vm_compute. reflexivity.
  - simpl. lia.
Defined.

(** C4, refuted: ids 1 and 2 both survive and the table gives both the
    name "A"; the returned list names "A" twice. *)
Lemma get_roi_name_repeats_shared_name :
  ∃ rois,
    fst (get_roi_name [0; 1; 1] 0%nat
           (<[1 := "A"%string]> (<[2 := "A"%string]> ∅)) (w0 [0; 1; 2])) = inr rois
    ∧ ¬ NoDup rois.
Proof.
  exists ["A"; "A"]%string. split; [by vm_compute|].
  intros Hnd. apply NoDup_cons in Hnd as [Hnotin _]. apply Hnotin. left.
Qed.

(** C4, amended.  For aligned mask and labels without negative ids, with
    some index masked out or unlabelled, and every surviving id in the
    table: the resolver returns, and the returned list holds the table's
    names of the distinct surviving ids in ascending order of id, one
    name per id; it is free of duplicates whenever the table gives
    distinct surviving ids distinct names.  (As a function of mask,
    labels and table the result is the same on every run.) *)
Theorem get_roi_name_ascending (mask : list Z) (a : loc) (d : gmap Z string)
    (labels : list Z) (w : World) :
  arrays w !! a = Some labels →
  length mask = length labels →
  Forall (Z.le 0) labels →
  has_background mask labels →
  (∀ k, survives mask labels k → is_Some (d !! k)) →
  ∃ ids rois,
    fst (get_roi_name mask a d w) = inr rois
    ∧ StronglySorted Z.lt ids
    ∧ (∀ k, k ∈ ids ↔ survives mask labels k)
    ∧ Forall2 (λ k n, d !! k = Some n) ids rois
    ∧ ((∀ j k n, survives mask labels j → survives mask labels k →
                 d !! j = Some n → d !! k = Some n → j = k) → NoDup rois).
Proof.
  intros Ha Hlen Hnn Hbg Hall.
  destruct (get_roi_name_ids mask a d labels w Ha Hlen Hnn Hbg) as (ids & Hs & Hids & Heq).
  destruct (lookup_all ids d) as [rois HF].
  { intros k Hk. apply Hall. by apply Hids. }
  exists ids, rois. rewrite Heq, (lookup_loop_ok ids d [] rois _ HF). simpl.
  repeat split; try done; try (by apply Hids).
  intros Hinj. apply (names_NoDup d ids rois HF).
  - by apply StronglySorted_lt_NoDup.
  - intros j k n Hj Hk. apply Hinj; by apply Hids.
Qed.

Lemma get_roi_name_ascending_witness :
  ∃ ids rois,
    fst (get_roi_name [1; 1; 1; 0] 0%nat table_abc (w0 [9; 2; 5; 7])) = inr rois
    ∧ StronglySorted Z.lt ids
    ∧ (∀ k, k ∈ ids ↔ survives [1; 1; 1; 0] [9; 2; 5; 7] k)
    ∧ Forall2 (λ k n, table_abc !! k = Some n) ids rois
    ∧ ((∀ j k n, survives [1; 1; 1; 0] [9; 2; 5; 7] j →
                 survives [1; 1; 1; 0] [9; 2; 5; 7] k →
                 table_abc !! j = Some n → table_abc !! k = Some n → j = k) →
       NoDup rois).
Proof.
  apply (get_roi_name_ascending [1; 1; 1; 0] 0%nat table_abc
           [9; 2; 5; 7] (w0 [9; 2; 5; 7])).
  - vm_compute. reflexivity.
  - reflexivity.
  - repeat constructor; lia.
  - exists 3%nat. split; [simpl; lia|]. left. reflexivity.
  - intros k (i & m & Hm & Hmz & Hl & Hk).
    destruct i as [|[|[|[|i]]]]; simpl in *; simplify_eq;
      eexists; vm_compute; reflexivity.
Defined.

(** C5, evaluated where it fails.  Two vertices, both inside a cluster
    and both labelled 4, and a table without 4: id 4 survives and has no
    entry, yet the resolver returns the empty list instead of raising,
    because [[1:]] removed 4 before the lookup. *)
Theorem get_roi_name_unlisted_id_passes :
  survives [1; 1] [4; 4] 4
  ∧ (∅ : gmap Z string) !! 4 = None
  ∧ fst (get_roi_name [1; 1] 0%nat ∅ (w0 [4; 4])) = inr [].
Proof.
  split; [|split].
  - exists 0%nat, 1. by repeat split.
  - done.
  - by vm_compute.
Qed.

(** ** Strings and paths *)

Lemma str_append_cons (a : Ascii.ascii) (s t : string) :
  String a s +:+ t = String a (s +:+ t).
Proof. reflexivity. Qed.

Lemma str_append_empty (s : string) : s +:+ "" = s.
Proof.
  induction s as [|a s IH]; [done|]. by rewrite str_append_cons, IH.
Qed.

Lemma str_take_drop (n : nat) (s : string) : str_take n s +:+ str_drop n s = s.
Proof.
  revert s. induction n as [|n IH]; intros [|a s]; simpl; try done.
  by rewrite str_append_cons, IH.
Qed.

Lemma str_prefix_app (s t : string) : String.prefix s (s +:+ t) = true.
Proof.
  induction s as [|a s IH]; [by destruct t|].
  rewrite str_append_cons. simpl.
  destruct (ascii_dec a a); [done|congruence].
Qed.

Lemma str_in_prefix (sub s : string) : String.prefix sub s = true → str_in sub s = true.
Proof.
  intros Hp. destruct s as [|a s].
  - change (str_in sub "") with (if String.prefix sub "" then true else false).
    by rewrite Hp.
  - change (str_in sub (String a s))
      with (if String.prefix sub (String a s) then true else str_in sub s).
    by rewrite Hp.
Qed.

Lemma str_in_cons (sub : string) (a : Ascii.ascii) (s : string) :
  str_in sub s = true → str_in sub (String a s) = true.
Proof.
  intros Hs. change (str_in sub (String a s))
    with (if String.prefix sub (String a s) then true else str_in sub s).
  rewrite Hs. by destruct (String.prefix sub (String a s)).
Qed.

Lemma str_in_app_r (sub pre : string) : str_in sub (pre +:+ sub) = true.
Proof.
  induction pre as [|a pre IH].
  - apply str_in_prefix. change ("" +:+ sub) with sub.
    pose proof (str_prefix_app sub "") as Hp. by rewrite str_append_empty in Hp.
  - rewrite str_append_cons. by apply str_in_cons.
Qed.

(** [splitext] splits: root and extension concatenate to the path. *)
Lemma genericpath_splitext_app (p : string) (sep : Ascii.ascii)
    (altsep : option Ascii.ascii) (extsep : Ascii.ascii) :
  fst (genericpath_splitext p sep altsep extsep)
  +:+ snd (genericpath_splitext p sep altsep extsep) = p.
Proof.
  unfold genericpath_splitext.
  match goal with |- context [if ?c then _ else _] => destruct c end; simpl.
  - apply str_take_drop.
  - apply str_append_empty.
Qed.

Lemma os_path_splitext_app (os : string) (p : string) :
  fst (os_path_splitext os p) +:+ snd (os_path_splitext os p) = p.
Proof.
  unfold os_path_splitext. case_bool_decide; apply genericpath_splitext_app.
Qed.

(** ** The record writer *)

(** The half of C7 that the code keeps: a path whose extension, as
    [os.path.splitext] sees it, is [.csv], [.tsv] or [.txt] is written
    under its root with [.csv]. *)
Lemma write_spread_out_file_recognised (os : string) (out_file : string) :
  snd (os_path_splitext os out_file) ∈ [".csv"; ".tsv"; ".txt"]%string →
  write_spread_out_file os out_file = fst (os_path_splitext os out_file) +:+ ".csv".
Proof.
  intros Hext. unfold write_spread_out_file.
  assert (str_in ".csv" out_file || str_in ".tsv" out_file || str_in ".txt" out_file = true)
    as Hin.
  { pose proof (os_path_splitext_app os out_file) as Happ.
    rewrite !elem_of_cons in Hext.
    destruct Hext as [He|[He|[He|He]]]; [| | |by apply elem_of_nil in He];
      rewrite He in Happ; rewrite <- Happ; rewrite str_in_app_r;
      by rewrite ?orb_true_r. }
  destruct (str_in ".csv" out_file); [done|].
  destruct (str_in ".tsv" out_file); [done|].
  destruct (str_in ".txt" out_file); [done|]. done.
Qed.

(** A path in which none of the three occurs is left as it is. *)
Lemma write_spread_out_file_untouched (os : string) (out_file : string) :
  str_in ".csv" out_file = false →
  str_in ".tsv" out_file = false →
  str_in ".txt" out_file = false →
  write_spread_out_file os out_file = out_file.
Proof. intros H1 H2 H3. unfold write_spread_out_file. by rewrite H1, H2, H3. Qed.

Section Writer.

Context (E : Env).

(** C7, evaluated where it fails.  The extension of [my.csv.bak] is
    [.bak], which is not one of the three; the path is not left
    unchanged but written as [my.csv.csv], because the test is whether
    [.csv] occurs anywhere in the path. *)
Theorem write_spread_rewrites_unrecognised (rois : list string) (w : World) :
  snd (os_path_splitext (os_name E) "my.csv.bak") = ".bak"%string
  ∧ fst (write_spread E "stats.dscalar.nii" "my.csv.bak" rois w)
    = inr "my.csv.csv"%string.
Proof.
  unfold write_spread, write_spread_out_file, os_path_splitext, bind, path_exists.
  case_bool_decide; (split; [by vm_compute|]);
    match goal with |- context [if ?c then _ else _] => destruct c end; done.
Qed.

(** C9.  [write_spread] returns the rewritten path [p]; if no file [p]
    existed it now holds the header [File,ROIs] and one data row; if
    one existed, it now holds its former rows followed by that one
    data row.  No other file, no array and no output line changes. *)
Theorem write_spread_appends_one_row (file out_file : string)
    (roi_list : list string) (w : World) :
  let p := write_spread_out_file (os_name E) out_file in
  let row := csv_record E (abspath E file, roi_list) in
  write_spread E file out_file roi_list w
  = (inr p,
     set_files <[p := match files w !! p with
                      | None => ["File,ROIs"%string; row]
                      | Some old => old ++ [row]
                      end]> w).
Proof.
  simpl. unfold write_spread, bind, path_exists.
  destruct (files w !! write_spread_out_file (os_name E) out_file) as [old|] eqn:Hp.
  - rewrite bool_decide_eq_true_2 by eauto.
    unfold to_csv, ret. simpl. by rewrite Hp.
  - rewrite bool_decide_eq_false_2 by (intros [? ?]; congruence).
    unfold to_csv, ret. simpl. done.
Qed.

End Writer.

(** ** Frames: what the resolver and the loaders leave alone *)

Lemma frames_ret {A} (a : A) : frames (ret a).
Proof. by intros w. Qed.

Lemma frames_raise {A} (e : exn) : frames (@raise A e).
Proof. by intros w. Qed.

Lemma frames_bind {A B} (m : M A) (k : A → M B) :
  frames m → (∀ a, frames (k a)) → frames (bind m k).
Proof.
  intros Hm Hk w. unfold bind. destruct (Hm w) as [Hf0 Hs0].
  destruct (m w) as [[e|a] w1]; simpl in *; [done|].
  destruct (Hk a w1) as [Hf Hs]. split; congruence.
Qed.

Lemma frames_setitem (a : loc) (idx : nat) (v : Z) : frames (setitem a idx v).
Proof.
  intros w. unfold setitem. destruct (arrays w !! a); [|done].
  by case_bool_decide.
Qed.

Lemma frames_getarray (a : loc) : frames (getarray a).
Proof. intros w. unfold getarray. by destruct (arrays w !! a). Qed.

Lemma frames_newarray (l : list Z) : frames (newarray l).
Proof. by intros w. Qed.

Lemma frames_suppress_loop (mask : list Z) (a : loc) (idx : nat) :
  frames (suppress_loop mask idx a).
Proof.
  revert idx. induction mask as [|m mask IH]; intros idx; simpl.
  - apply frames_ret.
  - apply frames_bind; [|intros _; apply IH].
    case_bool_decide; [apply frames_setitem|apply frames_ret].
Qed.

Lemma frames_lookup_loop (ids : list Z) (d : gmap Z string) (acc : list string) :
  frames (lookup_loop ids d acc).
Proof.
  revert acc. induction ids as [|k ids IH]; intros acc; simpl.
  - apply frames_ret.
  - destruct (d !! k); [apply IH|apply frames_raise].
Qed.

Lemma frames_get_roi_name (mask : list Z) (a : loc) (d : gmap Z string) :
  frames (get_roi_name mask a d).
Proof.
  unfold get_roi_name.
  apply frames_bind; [apply frames_suppress_loop|intros _].
  apply frames_bind; [apply frames_getarray|intros l].
  apply frames_lookup_loop.
Qed.

Create HintDb frames.
#[local] Hint Resolve frames_ret frames_raise frames_setitem frames_getarray
  frames_newarray frames_suppress_loop frames_lookup_loop
  frames_get_roi_name : frames.

Section Orchestrator.

Context (E : Env).

Lemma frames_proc_hemi (gii_data gii_atlas wb_struct : string) :
  frames (proc_hemi E gii_data gii_atlas wb_struct).
Proof.
  unfold proc_hemi, load_hemi_labels, load_hemi_data.
  repeat (apply frames_bind; [auto with frames|intros ?]); auto with frames.
Qed.

Lemma frames_hemi_loop (wb_structs : list string) (cii_data cii_atlas : string)
    (roi_list tmp_list : list string) :
  frames (hemi_loop E wb_structs cii_data cii_atlas roi_list tmp_list).
Proof.
  revert roi_list tmp_list.
  induction wb_structs as [|s rest IH]; intros roi_list tmp_list; simpl.
  - apply frames_ret.
  - apply frames_bind; [apply frames_proc_hemi|intros t; apply IH].
Qed.

Lemma load_vol_data_ret (file : string) (thresh dist : float E) (n : Z)
    (nii_atlas atlas_info : string) :
  load_vol_data E file thresh dist n nii_atlas atlas_info
  = ret (vol_rois E thresh dist n nii_atlas atlas_info).
Proof.
  unfold load_vol_data, vol_rois.
  by destruct (str_truthy nii_atlas && str_truthy atlas_info).
Qed.

Lemma frames_proc_stat_cluster_rois (cii_file cii_atlas left_surf right_surf : string)
    (thresh distance : float E) (n : Z) (nii_atlas atlas_info : string) :
  frames (proc_stat_cluster_rois E cii_file cii_atlas left_surf right_surf
            thresh distance n nii_atlas atlas_info).
Proof.
  unfold proc_stat_cluster_rois, find_clusters.
  apply frames_bind; [apply frames_ret|intros cii_data].
  apply frames_bind; [apply frames_hemi_loop|intros rt].
  apply frames_bind; [|intros t; apply frames_ret].
  destruct (negb _); [rewrite load_vol_data_ret|]; apply frames_ret.
Qed.

(** Extending by an empty list or skipping it is the same. *)
Lemma extend_or_pass (roi_list tmp_list : list string) :
  (if bool_decide (length tmp_list = 0%nat) then roi_list else roi_list ++ tmp_list)
  = roi_list ++ tmp_list.
Proof.
  case_bool_decide as Hl; [|done].
  apply length_zero_iff_nil in Hl as ->. by rewrite app_nil_r.
Qed.

(** The accumulated list in terms of the two hemisphere results: the
    third part is the volumetric result off Windows, and the value
    [tmp_list] still holds, the right-hemisphere result, on Windows. *)
Lemma proc_stat_cluster_rois_concat (cii_file cii_atlas left_surf right_surf : string)
    (thresh distance : float E) (n : Z) (nii_atlas atlas_info : string)
    (w w1 w2 : World) (l r : list string) :
  proc_hemi E "clusters.dscalar.nii" cii_atlas "CORTEX_LEFT" w = (inr l, w1) →
  proc_hemi E "clusters.dscalar.nii" cii_atlas "CORTEX_RIGHT" w1 = (inr r, w2) →
  proc_stat_cluster_rois E cii_file cii_atlas left_surf right_surf
    thresh distance n nii_atlas atlas_info w
  = (inr (l ++ r ++
          (if bool_decide (str_lower (platform_system E) = "windows"%string)
           then r
           else vol_rois E thresh distance n nii_atlas atlas_info)), w2).
Proof.
  intros Hl Hr.
  unfold proc_stat_cluster_rois, find_clusters, bind, ret. simpl.
  unfold bind. rewrite Hl, Hr. unfold ret. simpl.
  rewrite !extend_or_pass.
  case_bool_decide as Hw; simpl.
  - by rewrite extend_or_pass, <- app_assoc.
  - rewrite load_vol_data_ret. unfold ret.
    by rewrite extend_or_pass, <- app_assoc.
Qed.

(** X22.  Off Windows, with both hemispheres resolved, the accumulated
    list is the left result, then the right result, then the volumetric
    result, nothing removed and nothing merged. *)
Lemma proc_stat_cluster_rois_off_windows
    (cii_file cii_atlas left_surf right_surf : string)
    (thresh distance : float E) (n : Z) (nii_atlas atlas_info : string)
    (w w1 w2 : World) (l r : list string) :
  str_lower (platform_system E) ≠ "windows"%string →
  proc_hemi E "clusters.dscalar.nii" cii_atlas "CORTEX_LEFT" w = (inr l, w1) →
  proc_hemi E "clusters.dscalar.nii" cii_atlas "CORTEX_RIGHT" w1 = (inr r, w2) →
  proc_stat_cluster_rois E cii_file cii_atlas left_surf right_surf
    thresh distance n nii_atlas atlas_info w
  = (inr (l ++ r ++ vol_rois E thresh distance n nii_atlas atlas_info), w2).
Proof.
  intros Hw Hl Hr.
  rewrite (proc_stat_cluster_rois_concat _ _ _ _ _ _ _ _ _ w w1 w2 l r Hl Hr).
  by rewrite bool_decide_eq_false_2.
Qed.

(** On Windows the right-hemisphere result is appended a second time. *)
Lemma proc_stat_cluster_rois_on_windows
    (cii_file cii_atlas left_surf right_surf : string)
    (thresh distance : float E) (n : Z) (nii_atlas atlas_info : string)
    (w w1 w2 : World) (l r : list string) :
  str_lower (platform_system E) = "windows"%string →
  proc_hemi E "clusters.dscalar.nii" cii_atlas "CORTEX_LEFT" w = (inr l, w1) →
  proc_hemi E "clusters.dscalar.nii" cii_atlas "CORTEX_RIGHT" w1 = (inr r, w2) →
  proc_stat_cluster_rois E cii_file cii_atlas left_surf right_surf
    thresh distance n nii_atlas atlas_info w
  = (inr (l ++ r ++ r), w2).
Proof.
  intros Hw Hl Hr.
  rewrite (proc_stat_cluster_rois_concat _ _ _ _ _ _ _ _ _ w w1 w2 l r Hl Hr).
  by rewrite bool_decide_eq_true_2.
Qed.

(** A non-empty accumulated list is handed to [write_spread]. *)
Lemma proc_stat_cluster_writes (cii_file cii_atlas out_file left_surf right_surf : string)
    (thresh distance : float E) (n : Z) (nii_atlas atlas_info : string)
    (w w' : World) (roi_list : list string) :
  proc_stat_cluster_rois E cii_file cii_atlas left_surf right_surf
    thresh distance n nii_atlas atlas_info w = (inr roi_list, w') →
  roi_list ≠ [] →
  proc_stat_cluster E cii_file cii_atlas out_file left_surf right_surf
    thresh distance n nii_atlas atlas_info w
  = write_spread E cii_file out_file roi_list w'.
Proof.
  intros Hrois Hne. unfold proc_stat_cluster, bind. rewrite Hrois.
  rewrite bool_decide_eq_false_2; [done|].
  by destruct roi_list.
Qed.

(** C6.  When the list accumulated over the modalities is empty,
    [proc_stat_cluster] returns the output name it was given without
    calling [write_spread]: it ends in the world the modality steps
    left, in which every file (the output table among them) and the
    standard output are as they were at the start. *)
Theorem proc_stat_cluster_empty_no_write
    (cii_file cii_atlas out_file left_surf right_surf : string)
    (thresh distance : float E) (n : Z) (nii_atlas atlas_info : string)
    (w w' : World) :
  proc_stat_cluster_rois E cii_file cii_atlas left_surf right_surf
    thresh distance n nii_atlas atlas_info w = (inr [], w') →
  proc_stat_cluster E cii_file cii_atlas out_file left_surf right_surf
    thresh distance n nii_atlas atlas_info w = (inr out_file, w')
  ∧ files w' = files w
  ∧ stdout w' = stdout w.
Proof.
  intros Hrois. split.
  - unfold proc_stat_cluster, bind. by rewrite Hrois.
  - pose proof (frames_proc_stat_cluster_rois cii_file cii_atlas left_surf right_surf
                  thresh distance n nii_atlas atlas_info w) as Hfr.
    by rewrite Hrois in Hfr.
Qed.

(** ** The command line *)

(** An option that was not given counts as false. *)
Lemma truthy_int_None : truthy_int None = false.
Proof. reflexivity. Qed.

Lemma truthy_None : truthy None = false.
Proof. reflexivity. Qed.

(** C10.  With the five required options given (non-empty), no
    [--vol-atlas-num] (or 0) and not both of [--vol-atlas] and
    [--atlas-info]: [main] ends normally, with exit status 0, without
    calling [proc_stat_cluster] and without the usage message; files
    and arrays are untouched, and the only output there can be is the
    atlas listing when [--dump-vol-atlases] was also given. *)
Theorem main_without_volume_mode (args : Args E) (w : World) :
  truthy (arg_cii_file E args) = true →
  truthy (arg_out_file E args) = true →
  truthy (arg_left_gii E args) = true →
  truthy (arg_right_gii E args) = true →
  truthy (arg_cii_atlas E args) = true →
  truthy_int (arg_vol_atlas_num E args) = false →
  truthy (arg_vol_atlas E args) && truthy (arg_vol_info E args) = false →
  main E args w
  = (inr tt, if arg_dump_vol_atlases E args
             then set_stdout (fun out => out ++ nro_atlases E) w
             else w)
  ∧ exit_status (fst (main E args w)) = 0
  ∧ files (snd (main E args w)) = files w
  ∧ arrays (snd (main E args w)) = arrays w.
Proof.
  intros H1 H2 H3 H4 H5 Hn Hv.
  assert (main E args w
          = (inr tt, if arg_dump_vol_atlases E args
                     then set_stdout (fun out => out ++ nro_atlases E) w
                     else w)) as Hmain.
  { unfold main. destruct (arg_dump_vol_atlases E args); [done|].
    by rewrite H1, H2, H3, H4, H5, Hv, Hn. }
  split; [done|]. rewrite Hmain. simpl.
  by destruct (arg_dump_vol_atlases E args).
Qed.

End Orchestrator.

(** ** The orchestrator and the command line on sample data *)

(** C3, evaluated where it fails.  On Windows, with no overlap on the
    left and "Insula" on the right, the accumulated list is not the left
    result followed by the right result, ["Insula"], but names "Insula"
    twice: the volumetric step is skipped, and the [extend] after it
    reuses the right-hemisphere list still held by [tmp_list].  The row
    written to the output table shows it. *)
Theorem proc_stat_cluster_windows_repeats_right :
  fst (proc_hemi (sample_env "Windows" mask_right_only [])
         "clusters.dscalar.nii" "atlas.dlabel.nii" "CORTEX_LEFT" world_empty) = inr []
  ∧ fst (proc_hemi (sample_env "Windows" mask_right_only [])
           "clusters.dscalar.nii" "atlas.dlabel.nii" "CORTEX_RIGHT" world_empty)
    = inr ["Insula"%string]
  ∧ fst (proc_stat_cluster_rois (sample_env "Windows" mask_right_only [])
           "stats.dscalar.nii" "atlas.dlabel.nii" "L.surf.gii" "R.surf.gii"
           tt tt 4 "" "" world_empty)
    = inr ["Insula"; "Insula"]%string
  ∧ files (snd (proc_stat_cluster (sample_env "Windows" mask_right_only [])
                  "stats.dscalar.nii" "atlas.dlabel.nii" "out.csv"
                  "L.surf.gii" "R.surf.gii" tt tt 4 "" "" world_empty))
      !! "out.csv"%string
    = Some ["File,ROIs"; "C:\data\stats.dscalar.nii,Insula;Insula"]%string.
Proof. repeat split; by vm_compute. Qed.

(** C8, evaluated where it fails.  On Windows, with "Frontal" on the left
    and "Insula" on the right, the accumulated list is neither left,
    right, volume nor left, right: "Insula", which one modality
    produced, is there twice. *)
Theorem proc_stat_cluster_rois_windows_not_concat :
  fst (proc_hemi (sample_env "Windows" mask_both ["Thalamus"%string])
         "clusters.dscalar.nii" "atlas.dlabel.nii" "CORTEX_LEFT" world_empty)
  = inr ["Frontal"%string]
  ∧ fst (proc_hemi (sample_env "Windows" mask_both ["Thalamus"%string])
           "clusters.dscalar.nii" "atlas.dlabel.nii" "CORTEX_RIGHT" world_empty)
    = inr ["Insula"%string]
  ∧ fst (proc_stat_cluster_rois (sample_env "Windows" mask_both ["Thalamus"%string])
           "stats.dscalar.nii" "atlas.dlabel.nii" "L.surf.gii" "R.surf.gii"
           tt tt 4 "" "" world_empty)
    = inr ["Frontal"; "Insula"; "Insula"]%string.
Proof. repeat split; by vm_compute. Qed.

(** The same data off Windows: left, right, volume. *)
Example proc_stat_cluster_rois_linux :
  fst (proc_stat_cluster_rois (sample_env "Linux" mask_both ["Insula"%string])
         "stats.dscalar.nii" "atlas.dlabel.nii" "L.surf.gii" "R.surf.gii"
         tt tt 4 "" "" world_empty)
  = inr ["Frontal"; "Insula"; "Insula"]%string.
Proof. by vm_compute. Qed.

(** Two invocations on one table: one header, two rows. *)
Example write_spread_twice :
  files (snd (bind (write_spread (sample_env "Linux" mask_both []) "a.nii" "out.txt" ["X"%string])
                (fun _ => write_spread (sample_env "Linux" mask_both []) "b.nii" "out.csv"
                            ["Y"; "Z"]%string)
                world_empty)) !! "out.csv"%string
  = Some ["File,ROIs"; "/data/a.nii,X"; "/data/b.nii,Y;Z"]%string.
Proof. by vm_compute. Qed.

Lemma proc_stat_cluster_empty_no_write_witness :
  proc_stat_cluster (sample_env "Linux" mask_none [])
    "stats.dscalar.nii" "atlas.dlabel.nii" "out.csv" "L.surf.gii" "R.surf.gii"
    tt tt 4 "" "" world_empty
  = (inr "out.csv"%string,
     snd (proc_stat_cluster_rois (sample_env "Linux" mask_none [])
            "stats.dscalar.nii" "atlas.dlabel.nii" "L.surf.gii" "R.surf.gii"
            tt tt 4 "" "" world_empty))
  ∧ files (snd (proc_stat_cluster_rois (sample_env "Linux" mask_none [])
                  "stats.dscalar.nii" "atlas.dlabel.nii" "L.surf.gii" "R.surf.gii"
                  tt tt 4 "" "" world_empty)) = files world_empty
  ∧ stdout (snd (proc_stat_cluster_rois (sample_env "Linux" mask_none [])
                   "stats.dscalar.nii" "atlas.dlabel.nii" "L.surf.gii" "R.surf.gii"
                   tt tt 4 "" "" world_empty)) = stdout world_empty.
Proof.
  apply (proc_stat_cluster_empty_no_write (sample_env "Linux" mask_none [])).
  vm_compute. reflexivity.
Defined.

Lemma main_without_volume_mode_witness :
  main (sample_env "Linux" mask_both ["Thalamus"%string])
    (sample_args (sample_env "Linux" mask_both ["Thalamus"%string]) tt tt) world_empty
  = (inr tt, world_empty)
  ∧ exit_status (fst (main (sample_env "Linux" mask_both ["Thalamus"%string])
                        (sample_args (sample_env "Linux" mask_both ["Thalamus"%string]) tt tt)
                        world_empty)) = 0
  ∧ files (snd (main (sample_env "Linux" mask_both ["Thalamus"%string])
                  (sample_args (sample_env "Linux" mask_both ["Thalamus"%string]) tt tt)
                  world_empty)) = files world_empty
  ∧ arrays (snd (main (sample_env "Linux" mask_both ["Thalamus"%string])
                   (sample_args (sample_env "Linux" mask_both ["Thalamus"%string]) tt tt)
                   world_empty)) = arrays world_empty.
Proof.
  apply (main_without_volume_mode (sample_env "Linux" mask_both ["Thalamus"%string])
           (sample_args (sample_env "Linux" mask_both ["Thalamus"%string]) tt tt)
           world_empty); reflexivity.
Defined.

(** * Further properties of the resolver *)

(** ** Auxiliary facts *)

Lemma lookup_loop_world (ids : list Z) (d : gmap Z string) (acc : list string)
    (w : World) :
  snd (lookup_loop ids d acc w) = w.
Proof.
  revert acc. induction ids as [|k ids IH]; intros acc; simpl; [done|].
  destruct (d !! k); [apply IH|done].
Qed.

Lemma lookup_loop_result (ids : list Z) (d : gmap Z string) (acc : list string)
    (w w' : World) :
  fst (lookup_loop ids d acc w) = fst (lookup_loop ids d acc w').
Proof.
  revert acc. induction ids as [|k ids IH]; intros acc; simpl; [done|].
  destruct (d !! k); [apply IH|done].
Qed.

Lemma np_unique_replicate (n : nat) (x : Z) :
  np_unique (replicate n x) = match n with O => [] | S _ => [x] end.
Proof.
  induction n as [|n IH]; [done|].
  change (np_unique (replicate (S n) x)) with (insert_unique x (np_unique (replicate n x))).
  rewrite IH. destruct n; simpl; [done|].
  by rewrite Z.ltb_irrefl, Z.eqb_refl.
Qed.

(** Two strictly ascending lists with the same elements are equal. *)
Lemma ascending_ext (l1 l2 : list Z) :
  StronglySorted Z.lt l1 → StronglySorted Z.lt l2 →
  (∀ x, x ∈ l1 ↔ x ∈ l2) → l1 = l2.
Proof.
  revert l2. induction l1 as [|x t1 IH]; intros [|y t2] H1 H2 Hel.
  - done.
  - exfalso. eapply elem_of_nil, Hel. left.
  - exfalso. eapply elem_of_nil, Hel. left.
  - apply StronglySorted_inv in H1 as [Ht1 Hx].
    apply StronglySorted_inv in H2 as [Ht2 Hy].
    rewrite Forall_forall in Hx, Hy.
    assert (x = y) as ->.
    { assert (x ∈ y :: t2) as Hxin by (apply Hel; left).
      assert (y ∈ x :: t1) as Hyin by (apply Hel; left).
      apply elem_of_cons in Hxin as [?|Hxin]; [done|].
      apply elem_of_cons in Hyin as [?|Hyin]; [done|].
      specialize (Hx _ Hyin). specialize (Hy _ Hxin). lia. }
    f_equal. apply IH; [done|done|].
    intros z. split; intros Hz.
    + assert (z ∈ y :: t2) as Hz' by (apply Hel; by right).
      apply elem_of_cons in Hz' as [->|Hz']; [|done].
      specialize (Hx _ Hz). lia.
    + assert (z ∈ y :: t1) as Hz' by (apply Hel; by right).
      apply elem_of_cons in Hz' as [->|Hz']; [|done].
      specialize (Hy _ Hz). lia.
Qed.

(** [np.unique] sees an array as the set of its values. *)
Lemma np_unique_ext (l1 l2 : list Z) :
  (∀ x, x ∈ l1 ↔ x ∈ l2) → np_unique l1 = np_unique l2.
Proof.
  intros Hel. apply ascending_ext; try apply np_unique_sorted.
  intros x. by rewrite !np_unique_elem.
Qed.

Lemma mask_out_all_zero (mask labels : list Z) :
  length mask = length labels → Forall (λ m, m = 0) mask →
  mask_out mask labels = replicate (length labels) 0.
Proof.
  revert labels. induction mask as [|m mask IH]; intros [|l labels] Hlen Hz; try done.
  apply Forall_cons in Hz as [-> Hz]. simpl in *.
  f_equal. apply IH; [lia|done].
Qed.

Lemma mask_out_idem (mask labels : list Z) :
  mask_out mask (mask_out mask labels) = mask_out mask labels.
Proof.
  revert labels. induction mask as [|m mask IH]; intros [|l labels]; simpl; try done.
  rewrite IH. by case_bool_decide.
Qed.

Lemma mask_out_pad (mask labels : list Z) (k : nat) :
  mask_out (mask ++ replicate k 1) labels = mask_out mask labels.
Proof.
  revert labels. induction mask as [|m mask IH]; intros labels; simpl.
  - revert labels. induction k as [|k IHk]; intros [|l labels]; simpl; try done.
    by rewrite IHk.
  - destruct labels as [|l labels]; [done|]. by rewrite IH.
Qed.

(** For aligned inputs suppression is a map over the vertices. *)
Lemma mask_out_zip (mask labels : list Z) :
  length mask = length labels →
  mask_out mask labels
  = (λ ml : Z * Z, if bool_decide (ml.1 = 0) then 0 else ml.2) <$> zip mask labels.
Proof.
  revert labels. induction mask as [|m mask IH]; intros [|l labels] Hlen; try done.
  simpl in *. f_equal. apply IH. lia.
Qed.

Lemma suppress_loop_zero_pattern (mask mask' : list Z) (a : loc) :
  Forall2 (λ m m', m = 0 ↔ m' = 0) mask mask' →
  ∀ (idx : nat) (w : World), suppress_loop mask idx a w = suppress_loop mask' idx a w.
Proof.
  induction 1 as [|m m' mask mask' Hm HF IH]; intros idx w; [done|].
  simpl. unfold bind.
  rewrite (bool_decide_ext (m = 0) (m' = 0) Hm).
  destruct ((if bool_decide (m' = 0) then setitem a idx 0 else ret ()) w) as [[e|[]] w1];
    [done|apply IH].
Qed.

Lemma suppress_loop_app (m1 m2 : list Z) (a : loc) :
  ∀ (idx : nat) (w : World),
    suppress_loop (m1 ++ m2) idx a w
    = bind (suppress_loop m1 idx a) (λ _, suppress_loop m2 (idx + length m1)%nat a) w.
Proof.
  induction m1 as [|m m1 IH]; intros idx w; simpl.
  - unfold bind, ret. by rewrite Nat.add_0_r.
  - unfold bind.
    destruct ((if bool_decide (m = 0) then setitem a idx 0 else ret ()) w) as [[e|[]] w1];
      [done|].
    rewrite IH. unfold bind. by rewrite Nat.add_succ_r.
Qed.

Lemma suppress_loop_nonzero (mask : list Z) (a : loc) :
  Forall (λ m, m ≠ 0) mask →
  ∀ (idx : nat) (w : World), suppress_loop mask idx a w = (inr (), w).
Proof.
  induction 1 as [|m mask Hm HF IH]; intros idx w; [done|].
  simpl. unfold bind. rewrite bool_decide_eq_false_2 by done. unfold ret. apply IH.
Qed.

(** The first id without an entry, with everything before it present. *)
Lemma first_missing (ids : list Z) (d : gmap Z string) (k : Z) :
  k ∈ ids → d !! k = None →
  ∃ pre k' post, ids = pre ++ k' :: post
                 ∧ Forall (λ j, is_Some (d !! j)) pre
                 ∧ d !! k' = None.
Proof.
  induction ids as [|i ids IH]; intros Hin Hk; [by apply elem_of_nil in Hin|].
  destruct (d !! i) as [n|] eqn:Hi.
  - apply elem_of_cons in Hin as [->|Hin]; [congruence|].
    destruct (IH Hin Hk) as (pre & k' & post & -> & Hpre & Hk').
    exists (i :: pre), k', post. split; [done|]. split; [|done].
    constructor; [by eexists|done].
  - exists [], i, ids. by repeat split.
Qed.

Lemma lookup_loop_stops (pre post : list Z) (k : Z) (d : gmap Z string) :
  Forall (λ j, is_Some (d !! j)) pre → d !! k = None →
  ∀ (acc : list string) (w : World),
    lookup_loop (pre ++ k :: post) d acc w = (inl (KeyError k), w).
Proof.
  induction 1 as [|j pre [n Hj] Hpre IH]; intros Hk acc w; simpl.
  - by rewrite Hk.
  - rewrite Hj. by apply IH.
Qed.

(** ** Masks *)

(** X1.  A mask that is zero at every vertex, aligned with the labels:
    the resolver returns the empty list, whatever the labels and the
    table hold (the table is not consulted), and leaves the caller's
    array zero everywhere. *)
Theorem get_roi_name_zero_mask (mask : list Z) (a : loc) (d : gmap Z string)
    (labels : list Z) (w : World) :
  arrays w !! a = Some labels →
  length mask = length labels →
  Forall (λ m, m = 0) mask →
  get_roi_name mask a d w
  = (inr [], set_arrays <[a := replicate (length labels) 0]> w).
Proof.
  intros Ha Hlen Hz.
  rewrite (get_roi_name_run mask a d labels w Ha) by lia.
  rewrite (mask_out_all_zero mask labels Hlen Hz), np_unique_replicate.
  by destruct (length labels).
Qed.

Lemma get_roi_name_zero_mask_witness :
  get_roi_name [0; 0; 0] 0%nat ∅ (w0 [4; 0; 9])
  = (inr [], set_arrays <[0%nat := replicate (length [4; 0; 9]) 0]> (w0 [4; 0; 9])).
Proof.
  apply (get_roi_name_zero_mask [0; 0; 0] 0%nat ∅ [4; 0; 9] (w0 [4; 0; 9])).
  - vm_compute. reflexivity.
  - reflexivity.
  - repeat constructor.
Defined.

(** X2.  Only whether a mask value is zero matters: two masks that are
    zero at the same indices give the same outcome, result or exception,
    and the same final world. *)
Theorem get_roi_name_mask_zero_pattern (mask mask' : list Z) (a : loc)
    (d : gmap Z string) (w : World) :
  Forall2 (λ m m', m = 0 ↔ m' = 0) mask mask' →
  get_roi_name mask a d w = get_roi_name mask' a d w.
Proof.
  intros HF. unfold get_roi_name, bind.
  by rewrite (suppress_loop_zero_pattern mask mask' a HF).
Qed.

Lemma get_roi_name_mask_zero_pattern_witness :
  get_roi_name [1; 0; 7] 0%nat table_abc (w0 [9; 2; 5])
  = get_roi_name [-3; 0; 1] 0%nat table_abc (w0 [9; 2; 5]).
Proof.
  apply (get_roi_name_mask_zero_pattern [1; 0; 7] [-3; 0; 1]).
  repeat constructor; lia.
Defined.

(** X3.  Suppression is in place but settles after one call: calling the
    resolver again with the same mask on the array it has already
    suppressed gives the same outcome and changes nothing further. *)
Theorem get_roi_name_twice (mask : list Z) (a : loc) (d : gmap Z string)
    (labels : list Z) (w : World) :
  arrays w !! a = Some labels →
  (length mask ≤ length labels)%nat →
  get_roi_name mask a d (snd (get_roi_name mask a d w)) = get_roi_name mask a d w.
Proof.
  intros Ha Hlen.
  rewrite (get_roi_name_run mask a d labels w Ha Hlen).
  rewrite lookup_loop_world.
  set (w1 := set_arrays <[a := mask_out mask labels]> w).
  rewrite (get_roi_name_run mask a d (mask_out mask labels) w1).
  - rewrite mask_out_idem. subst w1. rewrite set_arrays_twice. done.
  - subst w1. simpl. apply lookup_insert_eq.
  - by rewrite mask_out_length.
Qed.

Lemma get_roi_name_twice_witness :
  get_roi_name [1; 0; 1] 0%nat table_abc
    (snd (get_roi_name [1; 0; 1] 0%nat table_abc (w0 [0; 2; 5])))
  = get_roi_name [1; 0; 1] 0%nat table_abc (w0 [0; 2; 5]).
Proof.
  apply (get_roi_name_twice [1; 0; 1] 0%nat table_abc [0; 2; 5] (w0 [0; 2; 5])).
  - vm_compute. reflexivity.
  - simpl. lia.
Defined.

(** ** Alignment is not checked *)

Lemma get_roi_name_index_error_past_end_witness :
  fst (get_roi_name [1; 1; 0] 0%nat table_abc (w0 [2; 5])) = inl IndexError.
Proof.
  apply (get_roi_name_index_error_past_end [1; 1; 0] 0%nat table_abc [2; 5]
           (w0 [2; 5]) 2%nat).
  - vm_compute. reflexivity.
  - reflexivity.
  - simpl. lia.
Defined.

(** X5.  Mask values past the end of the labels are ignored as long as
    none of them is zero: the outcome is that of the mask cut to the
    length of the labels. *)
Theorem get_roi_name_long_mask (mask : list Z) (a : loc) (d : gmap Z string)
    (labels : list Z) (w : World) :
  arrays w !! a = Some labels →
  Forall (λ m, m ≠ 0) (drop (length labels) mask) →
  get_roi_name mask a d w = get_roi_name (take (length labels) mask) a d w.
Proof.
  intros _ Hnz. unfold get_roi_name, bind.
  rewrite <- (take_drop (length labels) mask) at 1.
  rewrite suppress_loop_app. unfold bind.
  destruct (suppress_loop (take (length labels) mask) 0 a w) as [[e|[]] w1]; [done|].
  by rewrite (suppress_loop_nonzero _ a Hnz).
Qed.

Lemma get_roi_name_long_mask_witness :
  get_roi_name [1; 0; 4; 4] 0%nat table_abc (w0 [2; 5])
  = get_roi_name (take (length [2; 5]) [1; 0; 4; 4]) 0%nat table_abc (w0 [2; 5]).
Proof.
  apply (get_roi_name_long_mask [1; 0; 4; 4] 0%nat table_abc [2; 5] (w0 [2; 5])).
  - vm_compute. reflexivity.
  - repeat constructor; lia.
Defined.

(** X6.  A mask shorter than the labels: the labels it does not reach
    are kept as if they lay inside a cluster; the outcome is that of the
    mask extended with nonzero values. *)
Theorem get_roi_name_short_mask (mask : list Z) (a : loc) (d : gmap Z string)
    (labels : list Z) (w : World) :
  arrays w !! a = Some labels →
  (length mask ≤ length labels)%nat →
  get_roi_name mask a d w
  = get_roi_name (mask ++ replicate (length labels - length mask) 1) a d w.
Proof.
  intros Ha Hlen.
  rewrite (get_roi_name_run mask a d labels w Ha Hlen).
  rewrite (get_roi_name_run _ a d labels w Ha).
  - by rewrite mask_out_pad.
  - rewrite length_app, length_replicate. lia.
Qed.

Lemma get_roi_name_short_mask_witness :
  get_roi_name [0] 0%nat table_abc (w0 [2; 5; 9])
  = get_roi_name ([0] ++ replicate (length [2; 5; 9] - length [0]) 1) 0%nat
      table_abc (w0 [2; 5; 9]).
Proof.
  apply (get_roi_name_short_mask [0] 0%nat table_abc [2; 5; 9] (w0 [2; 5; 9])).
  - vm_compute. reflexivity.
  - simpl. lia.
Defined.

(** ** Which ids are looked up *)

Lemma get_roi_name_names_iff_witness :
  "A"%string ∈ ["B"; "A"; "C"]%string
  ↔ ∃ k, survives [1; 1; 1; 0] [9; 2; 5; 7] k ∧ table_abc !! k = Some "A"%string.
Proof.
  apply (get_roi_name_names_iff [1; 1; 1; 0] 0%nat table_abc [9; 2; 5; 7]
           (w0 [9; 2; 5; 7])
           (set_arrays <[0%nat := [9; 2; 5; 0]]> (w0 [9; 2; 5; 7]))).
  - vm_compute. reflexivity.
  - reflexivity.
  - repeat constructor; lia.
  - exists 3%nat. split; [simpl; lia|]. left. reflexivity.
  - vm_compute. reflexivity.
Defined.

(** X7.  Which key the error names.  For aligned inputs without negative
    ids and with some background, when surviving ids lack a table entry
    the resolver raises [KeyError] for the smallest of them. *)
Theorem get_roi_name_key_error_least (mask : list Z) (a : loc) (d : gmap Z string)
    (labels : list Z) (w : World) (k : Z) :
  arrays w !! a = Some labels →
  length mask = length labels →
  Forall (Z.le 0) labels →
  has_background mask labels →
  survives mask labels k → d !! k = None →
  ∃ k', fst (get_roi_name mask a d w) = inl (KeyError k')
        ∧ survives mask labels k' ∧ d !! k' = None
        ∧ ∀ j, survives mask labels j → d !! j = None → k' ≤ j.
Proof.
  intros Ha Hlen Hnn Hbg Hk Hd.
  destruct (get_roi_name_ids mask a d labels w Ha Hlen Hnn Hbg) as (ids & Hs & Hids & Heq).
  apply Hids in Hk.
  destruct (first_missing ids d k Hk Hd) as (pre & k' & post & -> & Hpre & Hk').
  exists k'. rewrite Heq, (lookup_loop_stops pre post k' d Hpre Hk').
  split; [done|]. split; [apply Hids, elem_of_app; right; left|]. split; [done|].
  intros j Hj Hdj. apply Hids in Hj.
  apply StronglySorted_app in Hs as (Hlt & _ & Hs2).
  apply StronglySorted_inv in Hs2 as [_ Hpost]. rewrite Forall_forall in Hpost.
  apply elem_of_app in Hj as [Hj|Hj].
  - rewrite Forall_forall in Hpre. destruct (Hpre _ Hj) as [n Hn]. congruence.
  - apply elem_of_cons in Hj as [->|Hj]; [lia|]. specialize (Hpost _ Hj). lia.
Qed.

Lemma get_roi_name_key_error_least_witness :
  ∃ k', fst (get_roi_name [0; 1; 1; 1] 0%nat table_abc (w0 [0; 8; 2; 3]))
        = inl (KeyError k')
        ∧ survives [0; 1; 1; 1] [0; 8; 2; 3] k' ∧ table_abc !! k' = None
        ∧ ∀ j, survives [0; 1; 1; 1] [0; 8; 2; 3] j → table_abc !! j = None → k' ≤ j.
Proof.
  apply (get_roi_name_key_error_least [0; 1; 1; 1] 0%nat table_abc [0; 8; 2; 3]
           (w0 [0; 8; 2; 3]) 8).
  - vm_compute. reflexivity.
  - reflexivity.
  - repeat constructor; lia.
  - exists 0%nat. split; [simpl; lia|]. left. reflexivity.
  - exists 1%nat, 1. repeat split; [lia|lia].
  - vm_compute. reflexivity.
Defined.

(** X8.  Without background.  For aligned, non-empty inputs in which no
    mask value and no label is zero, every label survives, and the
    smallest one is neither looked up nor reported: the resolver returns
    as soon as all other labels are in the table, with their names in
    ascending order of id. *)
Theorem get_roi_name_without_background (mask : list Z) (a : loc)
    (d : gmap Z string) (labels : list Z) (w : World) :
  arrays w !! a = Some labels →
  length mask = length labels →
  labels ≠ [] →
  Forall (λ m, m ≠ 0) mask →
  Forall (λ l, l ≠ 0) labels →
  ∃ k ids,
    survives mask labels k
    ∧ (∀ j, survives mask labels j → k ≤ j)
    ∧ StronglySorted Z.lt ids
    ∧ (∀ j, j ∈ ids ↔ survives mask labels j ∧ j ≠ k)
    ∧ ((∀ j, j ∈ ids → is_Some (d !! j)) →
       ∃ rois, fst (get_roi_name mask a d w) = inr rois
               ∧ Forall2 (λ j n, d !! j = Some n) ids rois).
Proof.
  intros Ha Hlen Hne Hm Hl.
  assert (0 ∉ mask_out mask labels) as H0.
  { intros Hin. apply list_elem_of_lookup in Hin as [i Hi].
    assert (i < length labels)%nat as Hlt.
    { rewrite <- (mask_out_length mask). eauto using lookup_lt_Some. }
    destruct (lookup_lt_is_Some_2 labels i Hlt) as [l Hli].
    destruct (lookup_lt_is_Some_2 mask i ltac:(lia)) as [m Hmi].
    rewrite (mask_out_lookup _ _ _ _ Hli) in Hi.
    rewrite Forall_forall in Hm, Hl.
    assert (m ≠ 0) by (apply Hm; apply list_elem_of_lookup; eauto).
    assert (l ≠ 0) by (apply Hl; apply list_elem_of_lookup; eauto).
    rewrite bool_decide_eq_false_2 in Hi by congruence. congruence. }
  rewrite (get_roi_name_run mask a d labels w Ha) by lia.
  pose proof (np_unique_sorted (mask_out mask labels)) as Hs.
  pose proof (np_unique_elem) as Hel.
  destruct (np_unique (mask_out mask labels)) as [|k ids] eqn:Hu.
  { exfalso.
    assert (length (mask_out mask labels) ≠ 0%nat) as Hlen'.
    { rewrite mask_out_length. by destruct labels. }
    destruct (mask_out mask labels) as [|x ml]; [done|].
    assert (x ∈ np_unique (x :: ml)) as Hin by (apply np_unique_elem; left).
    rewrite Hu in Hin. by apply elem_of_nil in Hin. }
  assert (∀ j, j ∈ k :: ids ↔ survives mask labels j) as Hsurv.
  { intros j. rewrite <- Hu, np_unique_elem. split.
    - intros Hj. apply mask_out_elem; [done| |done]. intros ->. done.
    - intros Hj. apply mask_out_elem; [done| |done].
      by destruct Hj as (? & ? & ? & ? & ? & ?). }
  apply StronglySorted_inv in Hs as [Hids Hk]. rewrite Forall_forall in Hk.
  exists k, ids. simpl.
  split; [apply Hsurv; left|].
  split.
  { intros j Hj. apply Hsurv in Hj. apply elem_of_cons in Hj as [->|Hj]; [lia|].
    specialize (Hk _ Hj). lia. }
  split; [done|]. split.
  { intros j. split.
    - intros Hj. split; [apply Hsurv; by right|]. specialize (Hk _ Hj). lia.
    - intros [Hj Hne']. apply Hsurv in Hj. by apply elem_of_cons in Hj as [?|Hj]. }
  intros Hall. destruct (lookup_all ids d Hall) as [rois HF].
  exists rois. by rewrite (lookup_loop_ok ids d [] rois _ HF).
Qed.

Lemma get_roi_name_without_background_witness :
  ∃ k ids,
    survives [1; 1; 1] [9; 2; 5] k
    ∧ (∀ j, survives [1; 1; 1] [9; 2; 5] j → k ≤ j)
    ∧ StronglySorted Z.lt ids
    ∧ (∀ j, j ∈ ids ↔ survives [1; 1; 1] [9; 2; 5] j ∧ j ≠ k)
    ∧ ((∀ j, j ∈ ids → is_Some (table_abc !! j)) →
       ∃ rois, fst (get_roi_name [1; 1; 1] 0%nat table_abc (w0 [9; 2; 5])) = inr rois
               ∧ Forall2 (λ j n, table_abc !! j = Some n) ids rois).
Proof.
  apply (get_roi_name_without_background [1; 1; 1] 0%nat table_abc [9; 2; 5]
           (w0 [9; 2; 5])).
  - vm_compute. reflexivity.
  - reflexivity.
  - discriminate.
  - repeat constructor; lia.
  - repeat constructor; lia.
Defined.

(** X9.  The order of the vertices does not matter: two aligned
    mask/label pairings that hold the same vertices in a different order
    give the same result under the same table. *)
Theorem get_roi_name_vertex_order (mask mask' : list Z) (a a' : loc)
    (d : gmap Z string) (labels labels' : list Z) (w w' : World) :
  arrays w !! a = Some labels →
  arrays w' !! a' = Some labels' →
  length mask = length labels →
  length mask' = length labels' →
  zip mask labels ≡ₚ zip mask' labels' →
  fst (get_roi_name mask a d w) = fst (get_roi_name mask' a' d w').
Proof.
  intros Ha Ha' Hlen Hlen' Hperm.
  rewrite (get_roi_name_run mask a d labels w Ha) by lia.
  rewrite (get_roi_name_run mask' a' d labels' w' Ha') by lia.
  rewrite (np_unique_ext (mask_out mask labels) (mask_out mask' labels')).
  - apply lookup_loop_result.
  - intros x. rewrite !mask_out_zip by done. by rewrite Hperm.
Qed.

Lemma get_roi_name_vertex_order_witness :
  fst (get_roi_name [1; 0; 1] 0%nat table_abc (w0 [5; 9; 2]))
  = fst (get_roi_name [1; 1; 0] 0%nat table_abc (w0 [2; 5; 9])).
Proof.
  apply (get_roi_name_vertex_order [1; 0; 1] [1; 1; 0] 0%nat 0%nat table_abc
           [5; 9; 2] [2; 5; 9] (w0 [5; 9; 2]) (w0 [2; 5; 9])).
  - vm_compute. reflexivity.
  - vm_compute. reflexivity.
  - reflexivity.
  - reflexivity.
  - simpl. symmetry. apply (Permutation_cons_append [(1, 5); (0, 9)] (1, 2)).
Defined.

(** * Further properties of the record writer *)

(** ** Searching and cutting strings *)

Lemma rfind_from_app (c : Ascii.ascii) (s t : string) :
  ∀ (i found : Z),
    rfind_from c (s +:+ t) i found
    = rfind_from c t (i + Z.of_nat (String.length s)) (rfind_from c s i found).
Proof.
  induction s as [|a s IH]; intros i found.
  - change ("" +:+ t) with t. simpl. by rewrite Z.add_0_r.
  - rewrite str_append_cons. simpl rfind_from. rewrite IH.
    f_equal. simpl String.length. lia.
Qed.

Lemma rfind_from_lower (c : Ascii.ascii) (s : string) :
  ∀ (i found : Z), -1 ≤ found → 0 ≤ i → -1 ≤ rfind_from c s i found.
Proof.
  induction s as [|a s IH]; intros i found Hf Hi; simpl; [done|].
  apply IH; [|lia]. destruct (Ascii.eqb a c); lia.
Qed.

Lemma str_get_app_l (s t : string) (n : nat) :
  (n < String.length s)%nat → String.get n (s +:+ t) = String.get n s.
Proof.
  revert n. induction s as [|a s IH]; intros n Hn; simpl in Hn; [lia|].
  rewrite str_append_cons. destruct n as [|n]; simpl; [done|]. apply IH. lia.
Qed.

Lemma str_take_app (s t : string) : str_take (String.length s) (s +:+ t) = s.
Proof.
  induction s as [|a s IH]; [by destruct t|].
  rewrite str_append_cons. simpl. by rewrite IH.
Qed.

Lemma str_drop_app (s t : string) : str_drop (String.length s) (s +:+ t) = t.
Proof.
  induction s as [|a s IH]; [by destruct t|].
  rewrite str_append_cons. simpl. by rewrite IH.
Qed.

(** The dot-skipping loop only reads the characters before [dotIndex]. *)
Lemma skip_dots_app (s t : string) (extsep : Ascii.ascii) (d : Z) :
  d ≤ Z.of_nat (String.length s) →
  ∀ (fuel : nat) (f : Z), 0 ≤ f →
    skip_dots fuel (s +:+ t) extsep f d = skip_dots fuel s extsep f d.
Proof.
  intros Hd. induction fuel as [|fuel IH]; intros f Hf; simpl; [done|].
  destruct (Z.ltb_spec f d) as [Hlt|Hge]; [|done].
  rewrite str_get_app_l by lia.
  destruct (String.get (Z.to_nat f) s) as [a|]; [|done].
  destruct (negb (Ascii.eqb a extsep)); [done|]. apply IH. lia.
Qed.

(** Splitting a root followed by one of the three extensions or [.csv]:
    whether the split happens depends on the root alone. *)
Lemma genericpath_splitext_root (root : string) (sep : Ascii.ascii)
    (altsep : option Ascii.ascii) :
  sep ∈ ["/"; "\"]%char → altsep ∈ [None; Some "/"%char] →
  ∃ c : bool, ∀ e, e ∈ [".csv"; ".tsv"; ".txt"]%string →
    genericpath_splitext (root +:+ e) sep altsep "."
    = if c then (root, e) else (root +:+ e, EmptyString).
Proof.
  intros Hsep Halt.
  set (si := match altsep with
             | Some alt => Z.max (rfind sep root) (rfind alt root)
             | None => rfind sep root
             end).
  set (n := Z.of_nat (String.length root)).
  exists ((si <? n) && skip_dots (Z.to_nat (n - si)) root "." (si + 1) n).
  intros e He.
  assert (-1 ≤ si) as Hsi.
  { subst si. pose proof (rfind_from_lower sep root 0 (-1) ltac:(lia) ltac:(lia)).
    unfold rfind. destruct altsep; lia. }
  assert (rfind "." (root +:+ e) = n) as Hdot.
  { unfold rfind. rewrite rfind_from_app.
    rewrite !elem_of_cons in He.
    destruct He as [->|[->|[->|He]]]; [done|done|done|by apply elem_of_nil in He]. }
  assert (∀ c', c' ∈ ["/"; "\"]%char → rfind c' (root +:+ e) = rfind c' root) as Hc.
  { intros c' Hc'. unfold rfind. rewrite rfind_from_app.
    rewrite !elem_of_cons in He. rewrite !elem_of_cons in Hc'.
    destruct Hc' as [->|[->|Hc']]; [| |by apply elem_of_nil in Hc'];
      (destruct He as [->|[->|[->|He]]]; [done|done|done|by apply elem_of_nil in He]). }
  unfold genericpath_splitext. rewrite Hdot, (Hc sep Hsep).
  assert (match altsep with
          | Some alt => Z.max (rfind sep root) (rfind alt (root +:+ e))
          | None => rfind sep root
          end = si) as ->.
  { subst si. destruct altsep as [alt|]; [|done].
    rewrite Hc; [done|].
    rewrite !elem_of_cons in Halt. destruct Halt as [?|[[= ->]|Halt]];
      [done|left|by apply elem_of_nil in Halt]. }
  rewrite skip_dots_app by (subst n; lia).
  subst n. rewrite Nat2Z.id, str_take_app, str_drop_app. done.
Qed.

Lemma os_path_splitext_root (os : string) (root : string) :
  ∃ c : bool, ∀ e, e ∈ [".csv"; ".tsv"; ".txt"]%string →
    os_path_splitext os (root +:+ e)
    = if c then (root, e) else (root +:+ e, EmptyString).
Proof.
  unfold os_path_splitext. case_bool_decide.
  - apply genericpath_splitext_root; [right; left|right; left].
  - apply genericpath_splitext_root; [left|left].
Qed.

(** ** The output name *)

(** X10.  An output name whose extension is [.csv], [.tsv] or [.txt] is
    written under its root with [.csv]; that name splits back into the
    same root and [.csv], and rewriting it again leaves it as it is, so
    the returned name can be passed back in and reaches the same table. *)
Theorem write_spread_out_file_settles (os : string) (out_file : string) :
  snd (os_path_splitext os out_file) ∈ [".csv"; ".tsv"; ".txt"]%string →
  write_spread_out_file os out_file = fst (os_path_splitext os out_file) +:+ ".csv"
  ∧ os_path_splitext os (write_spread_out_file os out_file)
    = (fst (os_path_splitext os out_file), ".csv"%string)
  ∧ write_spread_out_file os (write_spread_out_file os out_file)
    = write_spread_out_file os out_file.
Proof.
  intros Hext.
  pose proof (write_spread_out_file_recognised os out_file Hext) as Hp.
  pose proof (os_path_splitext_app os out_file) as Happ.
  destruct (os_path_splitext_root os (fst (os_path_splitext os out_file))) as [c Hc].
  assert (c = true) as ->.
  { pose proof (Hc _ Hext) as He. rewrite Happ in He.
    destruct c; [done|]. rewrite He in Hext. simpl in Hext.
    rewrite !elem_of_cons in Hext.
    destruct Hext as [?|[?|[?|Hext]]]; [done|done|done|by apply elem_of_nil in Hext]. }
  assert (os_path_splitext os (write_spread_out_file os out_file)
          = (fst (os_path_splitext os out_file), ".csv"%string)) as Hsplit.
  { rewrite Hp. apply (Hc ".csv"%string). left. }
  split; [done|]. split; [done|].
  rewrite (write_spread_out_file_recognised os (write_spread_out_file os out_file)).
  - by rewrite Hsplit.
  - rewrite Hsplit. left.
Qed.

Lemma write_spread_out_file_settles_witness :
  write_spread_out_file "posix" "results/run.1.txt"
  = fst (os_path_splitext "posix" "results/run.1.txt") +:+ ".csv"
  ∧ os_path_splitext "posix" (write_spread_out_file "posix" "results/run.1.txt")
    = (fst (os_path_splitext "posix" "results/run.1.txt"), ".csv"%string)
  ∧ write_spread_out_file "posix" (write_spread_out_file "posix" "results/run.1.txt")
    = write_spread_out_file "posix" "results/run.1.txt".
Proof.
  apply (write_spread_out_file_settles "posix" "results/run.1.txt").
  vm_compute. right. right. left.
Defined.

(** Rewriting is not settled for every name: a name without extension
    that has [.csv] in a directory gains a further [.csv] each time. *)
Example write_spread_out_file_grows :
  write_spread_out_file "posix" "runs.csv/table" = "runs.csv/table.csv"%string
  ∧ write_spread_out_file "posix" "runs.csv/" = "runs.csv/.csv"%string
  ∧ write_spread_out_file "posix" "runs.csv/.csv" = "runs.csv/.csv.csv"%string.
Proof. by vm_compute. Qed.

Section WriterMore.

Context (E : Env).

(** What one call does to the world. *)
Lemma write_spread_run (file out_file : string) (roi_list : list string) (w : World) :
  write_spread E file out_file roi_list w
  = (inr (write_spread_out_file (os_name E) out_file),
     set_files
       <[write_spread_out_file (os_name E) out_file :=
           match files w !! write_spread_out_file (os_name E) out_file with
           | None => ["File,ROIs"%string; csv_record E (abspath E file, roi_list)]
           | Some old => old ++ [csv_record E (abspath E file, roi_list)]
           end]> w).
Proof.
  unfold write_spread, bind, path_exists.
  destruct (files w !! write_spread_out_file (os_name E) out_file) as [old|] eqn:Hp.
  - rewrite bool_decide_eq_true_2 by eauto.
    unfold to_csv, ret. simpl. by rewrite Hp.
  - rewrite bool_decide_eq_false_2 by (intros [? ?]; congruence).
    unfold to_csv, ret. simpl. done.
Qed.

(** X11.  Two calls whose output names are rewritten to the same path,
    one after the other: the table holds what it held before (or the
    header, if it did not exist) followed by the two data rows in call
    order; the header is not repeated and no other file changes. *)
Theorem write_spread_two_calls (file1 file2 out1 out2 : string)
    (rois1 rois2 : list string) (w : World) :
  write_spread_out_file (os_name E) out1 = write_spread_out_file (os_name E) out2 →
  bind (write_spread E file1 out1 rois1) (λ _, write_spread E file2 out2 rois2) w
  = (inr (write_spread_out_file (os_name E) out1),
     set_files
       <[write_spread_out_file (os_name E) out1 :=
           match files w !! write_spread_out_file (os_name E) out1 with
           | None => ["File,ROIs"%string]
           | Some old => old
           end ++ [csv_record E (abspath E file1, rois1);
                   csv_record E (abspath E file2, rois2)]]> w).
Proof.
  intros Hsame. unfold bind. rewrite write_spread_run, write_spread_run.
  rewrite <- Hsame. simpl. rewrite lookup_insert_eq.
  unfold set_files. simpl. rewrite insert_insert_eq.
  destruct (files w !! write_spread_out_file (os_name E) out1); simpl; [|done].
  by rewrite <- app_assoc.
Qed.

End WriterMore.

Lemma write_spread_two_calls_witness :
  bind (write_spread (sample_env "Linux" mask_both []) "a.nii" "out.txt" ["X"%string])
       (λ _, write_spread (sample_env "Linux" mask_both []) "b.nii" "out.csv"
               ["Y"; "Z"]%string) world_empty
  = (inr (write_spread_out_file (os_name (sample_env "Linux" mask_both [])) "out.txt"),
     set_files
       <[write_spread_out_file (os_name (sample_env "Linux" mask_both [])) "out.txt" :=
           match files world_empty
                 !! write_spread_out_file (os_name (sample_env "Linux" mask_both [])) "out.txt"
           with
           | None => ["File,ROIs"%string]
           | Some old => old
           end ++ [csv_record (sample_env "Linux" mask_both [])
                     (abspath (sample_env "Linux" mask_both []) "a.nii", ["X"%string]);
                   csv_record (sample_env "Linux" mask_both [])
                     (abspath (sample_env "Linux" mask_both []) "b.nii", ["Y"; "Z"]%string)]]>
       world_empty).
Proof.
  apply (write_spread_two_calls (sample_env "Linux" mask_both [])
           "a.nii" "b.nii" "out.txt" "out.csv").
  vm_compute. reflexivity.
Defined.

(** * Further properties of the orchestrator *)

(** ** Which arrays a computation writes *)


Lemma only_writes_raise {A} (a : loc) (e : exn) : only_writes a (@raise A e).
Proof. by intros w b Hb. Qed.











Section OrchestratorMore.

Context (E : Env).







(** X15.  Off Windows, with both hemispheres resolved and something
    found: the call returns the rewritten output name, and the table
    gains exactly one row, for the absolute path of the input and the
    left, right and volumetric names in that order, after the header if
    the table is new and after its former rows otherwise. *)
Theorem proc_stat_cluster_writes_row
    (cii_file cii_atlas out_file left_surf right_surf : string)
    (thresh distance : float E) (n : Z) (nii_atlas atlas_info : string)
    (w w1 w2 : World) (l r : list string) :
  str_lower (platform_system E) ≠ "windows"%string →
  proc_hemi E "clusters.dscalar.nii" cii_atlas "CORTEX_LEFT" w = (inr l, w1) →
  proc_hemi E "clusters.dscalar.nii" cii_atlas "CORTEX_RIGHT" w1 = (inr r, w2) →
  l ++ r ++ vol_rois E thresh distance n nii_atlas atlas_info ≠ [] →
  fst (proc_stat_cluster E cii_file cii_atlas out_file left_surf right_surf
         thresh distance n nii_atlas atlas_info w)
  = inr (write_spread_out_file (os_name E) out_file)
  ∧ files (snd (proc_stat_cluster E cii_file cii_atlas out_file left_surf right_surf
                  thresh distance n nii_atlas atlas_info w))
    = <[write_spread_out_file (os_name E) out_file :=
          match files w !! write_spread_out_file (os_name E) out_file with
          | None =>
              ["File,ROIs"%string;
               csv_record E (abspath E cii_file,
                             l ++ r ++ vol_rois E thresh distance n nii_atlas atlas_info)]
          | Some old =>
              old ++ [csv_record E (abspath E cii_file,
                                    l ++ r ++ vol_rois E thresh distance n nii_atlas
                                                atlas_info)]
          end]> (files w).
Proof.
  intros Hw Hl Hr Hne.
  pose proof (proc_stat_cluster_rois_concat E cii_file cii_atlas left_surf right_surf
                thresh distance n nii_atlas atlas_info w w1 w2 l r Hl Hr) as Hrois.
  rewrite bool_decide_eq_false_2 in Hrois by done.
  rewrite (proc_stat_cluster_writes E cii_file cii_atlas out_file left_surf right_surf
             thresh distance n nii_atlas atlas_info w w2 _ Hrois Hne).
  rewrite write_spread_run. simpl.
  pose proof (frames_proc_stat_cluster_rois E cii_file cii_atlas left_surf right_surf
                thresh distance n nii_atlas atlas_info w) as [Hf _].
  rewrite Hrois in Hf. simpl in Hf. by rewrite Hf.
Qed.

(** ** The usage error *)

(** X16.  Without [--dump-vol-atlases], as soon as one of the five
    required options is missing or empty, [main] prints an empty line,
    the message and an empty line, and exits with status 1; no file and
    no array is touched, whatever volumetric options were given. *)
Theorem main_usage_error (args : Args E) (w : World) :
  arg_dump_vol_atlases E args = false →
  truthy (arg_cii_file E args) && truthy (arg_out_file E args)
  && truthy (arg_left_gii E args) && truthy (arg_right_gii E args)
  && truthy (arg_cii_atlas E args) = false →
  main E args w
  = (inl (SystemExit 1),
     set_stdout
       (λ out, out ++ [""; "Not all valid options were specified. Please see help menu for details."; ""]%string)
       w)
  ∧ exit_status (fst (main E args w)) = 1.
Proof.
  intros Hd Hreq.
  assert (main E args w
          = (inl (SystemExit 1),
             set_stdout
               (λ out, out ++ [""; "Not all valid options were specified. Please see help menu for details."; ""]%string)
               w)) as Hmain.
  { unfold main. rewrite Hd, Hreq. unfold bind, print, raise, set_stdout. simpl.
    by rewrite <- !app_assoc. }
  split; [done|]. by rewrite Hmain.
Qed.

End OrchestratorMore.


Lemma proc_stat_cluster_writes_row_witness :
  fst (proc_stat_cluster (sample_env "Linux" mask_both ["Thalamus"%string])
         "stats.dscalar.nii" "atlas.dlabel.nii" "out.txt" "L.surf.gii" "R.surf.gii"
         tt tt 4 "" "" world_empty)
  = inr "out.csv"%string
  ∧ files (snd (proc_stat_cluster (sample_env "Linux" mask_both ["Thalamus"%string])
                  "stats.dscalar.nii" "atlas.dlabel.nii" "out.txt" "L.surf.gii"
                  "R.surf.gii" tt tt 4 "" "" world_empty))
    = {[ "out.csv"%string :=
           ["File,ROIs"; "/data/stats.dscalar.nii,Frontal;Insula;Thalamus"]%string ]}.
Proof.
  apply (proc_stat_cluster_writes_row (sample_env "Linux" mask_both ["Thalamus"%string])
           "stats.dscalar.nii" "atlas.dlabel.nii" "out.txt" "L.surf.gii" "R.surf.gii"
           tt tt 4 "" "" world_empty
           (snd (proc_hemi (sample_env "Linux" mask_both ["Thalamus"%string])
                   "clusters.dscalar.nii" "atlas.dlabel.nii" "CORTEX_LEFT" world_empty))
           (snd (proc_hemi (sample_env "Linux" mask_both ["Thalamus"%string])
                   "clusters.dscalar.nii" "atlas.dlabel.nii" "CORTEX_RIGHT"
                   (snd (proc_hemi (sample_env "Linux" mask_both ["Thalamus"%string])
                           "clusters.dscalar.nii" "atlas.dlabel.nii" "CORTEX_LEFT"
                           world_empty))))
           ["Frontal"%string] ["Insula"%string]).
  - vm_compute. discriminate.
  - vm_compute. reflexivity.
  - vm_compute. reflexivity.
  - vm_compute. discriminate.
Defined.

Lemma proc_stat_cluster_rois_off_windows_witness :
  proc_stat_cluster_rois (sample_env "Linux" mask_right_only ["Insula"%string])
    "stats.dscalar.nii" "atlas.dlabel.nii" "L.surf.gii" "R.surf.gii"
    tt tt 4 "" "" world_empty
  = (inr ([] ++ ["Insula"%string]
          ++ vol_rois (sample_env "Linux" mask_right_only ["Insula"%string]) tt tt 4 "" ""),
     snd (proc_hemi (sample_env "Linux" mask_right_only ["Insula"%string])
            "clusters.dscalar.nii" "atlas.dlabel.nii" "CORTEX_RIGHT"
            (snd (proc_hemi (sample_env "Linux" mask_right_only ["Insula"%string])
                    "clusters.dscalar.nii" "atlas.dlabel.nii" "CORTEX_LEFT"
                    world_empty)))).
Proof.
  apply (proc_stat_cluster_rois_off_windows
           (sample_env "Linux" mask_right_only ["Insula"%string])
           "stats.dscalar.nii" "atlas.dlabel.nii" "L.surf.gii" "R.surf.gii"
           tt tt 4 "" "" world_empty
           (snd (proc_hemi (sample_env "Linux" mask_right_only ["Insula"%string])
                   "clusters.dscalar.nii" "atlas.dlabel.nii" "CORTEX_LEFT" world_empty))).
  - vm_compute. discriminate.
  - vm_compute. reflexivity.
  - vm_compute. reflexivity.
Defined.

Lemma main_usage_error_witness :
  main (sample_env "Linux" mask_both ["Thalamus"%string])
    (sample_args_no_atlas (sample_env "Linux" mask_both ["Thalamus"%string]) tt tt)
    world_empty
  = (inl (SystemExit 1),
     set_stdout
       (λ out, out ++ [""; "Not all valid options were specified. Please see help menu for details."; ""]%string)
       world_empty)
  ∧ exit_status
      (fst (main (sample_env "Linux" mask_both ["Thalamus"%string])
              (sample_args_no_atlas (sample_env "Linux" mask_both ["Thalamus"%string]) tt tt)
              world_empty)) = 1.
Proof.
  apply (main_usage_error (sample_env "Linux" mask_both ["Thalamus"%string])
           (sample_args_no_atlas (sample_env "Linux" mask_both ["Thalamus"%string]) tt tt)
           world_empty); reflexivity.
Defined.

(** * Loading GIFTI data *)

Example load_gii_data_two_maps :
  load_gii_data [mkDataArray "NIFTI_INTENT_NORMAL" (Arr1 [1; 2; 3]);
                 mkDataArray "NIFTI_INTENT_NORMAL" (Arr1 [4; 5; 6])]
    "NIFTI_INTENT_NORMAL"
  = inr (Arr2 2 [[1; 4]; [2; 5]; [3; 6]]).
Proof. reflexivity. Qed.

Section NumpyFacts.

Context {A : Type}.

Implicit Types (v : list A) (vs : list (list A)) (data : @ndarray A).

Lemma filter_intent_all (intent : string) vs :
  get_arrays_from_intent ((λ v, mkDataArray intent (Arr1 v)) <$> vs) intent
  = (λ v, mkDataArray intent (Arr1 v)) <$> vs.
Proof.
  unfold get_arrays_from_intent. induction vs as [|v vs IH]; [done|].
  rewrite fmap_cons, filter_cons_True by done. by rewrite IH.
Qed.

(** Stacking the arrays [m], ..., [m + n - 1] of a list of
    one-dimensional arrays of one length. *)
Lemma vstack_loop_stack (intent : string) vs (N : nat) :
  Forall (λ v, length v = N) vs →
  ∀ (n m : nat) data (pre : list (list A)),
    np_atleast_2d data = (N, pre) →
    (m + n ≤ length vs)%nat →
    ∃ data',
      vstack_loop ((λ v, mkDataArray intent (Arr1 v)) <$> vs) (seq m n) data = inr data'
      ∧ np_atleast_2d data' = (N, pre ++ take n (drop m vs))
      ∧ (n = 0%nat → data' = data).
Proof.
  intros Hlen. induction n as [|n IH]; intros m data pre Hd Hmn.
  - exists data. simpl. by rewrite app_nil_r.
  - destruct (lookup_lt_is_Some_2 vs m ltac:(lia)) as [v Hv].
    assert (length v = N) as HvN.
    { rewrite Forall_forall in Hlen. apply Hlen. apply list_elem_of_lookup. eauto. }
    simpl. rewrite list_lookup_fmap, Hv. simpl.
    unfold np_vstack. rewrite Hd. simpl.
    rewrite bool_decide_eq_true_2 by done.
    destruct (IH (S m) (Arr2 N (pre ++ [v])) (pre ++ [v]) eq_refl ltac:(lia))
      as (data' & Hrun & Hshape & _).
    exists data'. split; [done|]. split; [|done].
    rewrite Hshape. f_equal. rewrite <- app_assoc. f_equal.
    by rewrite (drop_S vs v m Hv).
Qed.

(** Past the arrays there are, the loop stops with [IndexError]. *)
Lemma vstack_loop_short (intent : string) vs (N : nat) :
  Forall (λ v, length v = N) vs →
  ∀ (n m : nat) data (pre : list (list A)),
    np_atleast_2d data = (N, pre) →
    (m ≤ length vs)%nat → (length vs < m + n)%nat →
    vstack_loop ((λ v, mkDataArray intent (Arr1 v)) <$> vs) (seq m n) data
    = inl NpIndexError.
Proof.
  intros Hlen. induction n as [|n IH]; intros m data pre Hd Hm Hmn; [lia|].
  simpl. rewrite list_lookup_fmap.
  destruct (vs !! m) as [v|] eqn:Hv; simpl; [|done].
  assert (length v = N) as HvN.
  { rewrite Forall_forall in Hlen. apply Hlen. apply list_elem_of_lookup. eauto. }
  unfold np_vstack. rewrite Hd. simpl.
  rewrite bool_decide_eq_true_2 by done.
  apply lookup_lt_Some in Hv.
  apply (IH (S m) (Arr2 N (pre ++ [v])) (pre ++ [v]) eq_refl); lia.
Qed.

Lemma omap_lookup_column vs (i j : nat) :
  Forall (λ v, i < length v)%nat vs →
  omap (λ r, r !! i) vs !! j = vs !! j ≫= (λ v, v !! i).
Proof.
  revert j. induction vs as [|v vs IH]; intros j Hall; [done|].
  apply Forall_cons in Hall as [Hv Hall].
  destruct (lookup_lt_is_Some_2 v i Hv) as [x Hx].
  simpl. rewrite Hx. destruct j as [|j]; simpl; [done|]. by apply IH.
Qed.

Lemma omap_column_length vs (i : nat) :
  Forall (λ v, i < length v)%nat vs → length (omap (λ r, r !! i) vs) = length vs.
Proof.
  induction vs as [|v vs IH]; intros Hall; [done|].
  apply Forall_cons in Hall as [Hv Hall].
  destruct (lookup_lt_is_Some_2 v i Hv) as [x Hx].
  simpl. rewrite Hx. simpl. f_equal. by apply IH.
Qed.

(** X17.  An image whose data arrays are [k >= 1] one-dimensional arrays
    of one length [N], all of the requested intent, loads as a
    two-dimensional array with [N] rows and [k] columns, one column per
    data array: entry [i] of array [j] is at row [i], column [j].  A
    single array comes out as one column. *)
Theorem load_gii_data_columns (intent : string) vs (N : nat) :
  vs ≠ [] →
  Forall (λ v, length v = N) vs →
  ∃ rows,
    load_gii_data ((λ v, mkDataArray intent (Arr1 v)) <$> vs) intent
    = inr (Arr2 (length vs) rows)
    ∧ length rows = N
    ∧ Forall (λ r, length r = length vs) rows
    ∧ ∀ i j v x, vs !! j = Some v → v !! i = Some x →
                 rows !! i ≫= (λ r, r !! j) = Some x.
Proof.
  intros Hne Hlen. unfold load_gii_data.
  rewrite filter_intent_all, length_fmap.
  destruct vs as [|v0 vs']; [done|]. clear Hne.
  assert (length v0 = N) as Hv0 by (by apply Forall_cons in Hlen as [? _]).
  change (((λ v, mkDataArray intent (Arr1 v)) <$> v0 :: vs') !! 0%nat)
    with (Some (mkDataArray intent (Arr1 v0))).
  rewrite bool_decide_eq_true_2 by (simpl; lia).
  destruct (vstack_loop_stack intent (v0 :: vs') N Hlen (length (v0 :: vs') - 1) 1
              (Arr1 v0) [v0]) as (data & Hrun & Hshape & Hsame).
  { simpl. by rewrite Hv0. }
  { simpl. lia. }
  simpl da_data. rewrite Hrun.
  assert ([v0] ++ take (length (v0 :: vs') - 1) (drop 1 (v0 :: vs')) = v0 :: vs') as Hall.
  { simpl. rewrite Nat.sub_0_r, drop_0. by rewrite firstn_all. }
  rewrite Hall in Hshape. clear Hall Hrun.
  destruct vs' as [|v1 vs''].
  - (* one array: reshaped into a column *)
    rewrite (Hsame eq_refl). simpl.
    exists ((λ x, [x]) <$> v0). split; [done|].
    split; [by rewrite length_fmap|].
    split; [apply Forall_fmap, Forall_forall; by intros|].
    intros i j v x Hj Hi. destruct j as [|j]; [|done].
    injection Hj as <-. rewrite list_lookup_fmap, Hi. done.
  - (* several arrays: stacked and transposed *)
    destruct data as [v|c rows]; simpl in Hshape; [by injection Hshape|].
    injection Hshape as -> ->. clear Hsame Hv0.
    remember (v0 :: v1 :: vs'') as vs eqn:Hvs. clear Hvs.
    simpl np_transpose. simpl np_shape. rewrite bool_decide_eq_false_2 by done.
    eexists. split; [reflexivity|].
    split; [by rewrite length_fmap, length_seq|].
    split.
    + apply Forall_fmap, Forall_forall. intros i Hi.
      apply elem_of_seq in Hi. apply omap_column_length.
      eapply Forall_impl; [exact Hlen|]. intros; simpl in *; lia.
    + intros i j v x Hj Hi.
      assert (i < N)%nat as HiN.
      { rewrite Forall_forall in Hlen.
        rewrite <- (Hlen v) by (apply list_elem_of_lookup; eauto).
        eauto using lookup_lt_Some. }
      rewrite list_lookup_fmap, lookup_seq_lt by done.
      change (omap (λ r, r !! (0 + i)%nat) vs !! j = Some x).
      rewrite omap_lookup_column.
      * by rewrite Hj.
      * eapply Forall_impl; [exact Hlen|]. intros; simpl in *; lia.
Qed.

(** X18.  No data array of the requested intent: [IndexError]. *)
Theorem load_gii_data_no_intent (darrays : list (@GiftiDataArray A)) (intent : string) :
  Forall (λ x, da_intent x ≠ intent) darrays →
  load_gii_data darrays intent = inl NpIndexError.
Proof.
  intros Hall. unfold load_gii_data, get_arrays_from_intent.
  assert (filter (λ x, da_intent x = intent) darrays = []) as ->; [|done].
  induction Hall as [|x l Hx Hl IH]; [done|].
  by rewrite filter_cons_False.
Qed.

(** X19.  The loop runs over all data arrays of the image but indexes
    those of the requested intent: an image that also holds an array of
    another intent, next to one-dimensional arrays of one length of the
    requested intent, does not load; the result is [IndexError]. *)
Theorem load_gii_data_foreign_intent (darrays : list (@GiftiDataArray A))
    (intent : string) vs (N : nat) :
  get_arrays_from_intent darrays intent = (λ v, mkDataArray intent (Arr1 v)) <$> vs →
  vs ≠ [] →
  Forall (λ v, length v = N) vs →
  (length vs < length darrays)%nat →
  load_gii_data darrays intent = inl NpIndexError.
Proof.
  intros Hf Hne Hlen Hlt. unfold load_gii_data. rewrite Hf.
  destruct vs as [|v0 vs']; [done|].
  assert (length v0 = N) as Hv0 by (by apply Forall_cons in Hlen as [? _]).
  change (((λ v, mkDataArray intent (Arr1 v)) <$> v0 :: vs') !! 0%nat)
    with (Some (mkDataArray intent (Arr1 v0))).
  rewrite bool_decide_eq_true_2 by lia. simpl da_data.
  rewrite (vstack_loop_short intent (v0 :: vs') N Hlen (length darrays - 1) 1
             (Arr1 v0) [v0]); [done| | |].
  - simpl. by rewrite Hv0.
  - simpl. lia.
  - simpl in *. lia.
Qed.

(** X20.  Data arrays of different lengths cannot be stacked: when the
    first two arrays of the requested intent are one-dimensional and of
    different lengths, the result is [ValueError]. *)
Theorem load_gii_data_ragged (intent : string) (v0 v1 : list A)
    (rest : list (@GiftiDataArray A)) :
  length v0 ≠ length v1 →
  load_gii_data (mkDataArray intent (Arr1 v0) :: mkDataArray intent (Arr1 v1) :: rest)
    intent
  = inl NpValueError.
Proof.
  intros Hne. unfold load_gii_data, get_arrays_from_intent.
  rewrite !filter_cons_True by done. simpl.
  unfold np_vstack. simpl. by rewrite bool_decide_eq_false_2.
Qed.

End NumpyFacts.

Lemma load_gii_data_columns_witness :
  ∃ rows,
    load_gii_data ((λ v, mkDataArray "NIFTI_INTENT_NORMAL" (Arr1 v))
                     <$> [[1; 2; 3]; [4; 5; 6]]) "NIFTI_INTENT_NORMAL"
    = inr (Arr2 (length [[1; 2; 3]; [4; 5; 6]]) rows)
    ∧ length rows = 3%nat
    ∧ Forall (λ r, length r = length [[1; 2; 3]; [4; 5; 6]]) rows
    ∧ ∀ i j v x, [[1; 2; 3]; [4; 5; 6]] !! j = Some v → v !! i = Some x →
                 rows !! i ≫= (λ r, r !! j) = Some x.
Proof.
  apply (load_gii_data_columns "NIFTI_INTENT_NORMAL" [[1; 2; 3]; [4; 5; 6]] 3).
  - discriminate.
  - repeat constructor.
Defined.

Lemma load_gii_data_no_intent_witness :
  load_gii_data [mkDataArray "NIFTI_INTENT_POINTSET" (Arr1 [1; 2; 3])]
    "NIFTI_INTENT_NORMAL"
  = inl NpIndexError.
Proof.
  apply (load_gii_data_no_intent
           [mkDataArray "NIFTI_INTENT_POINTSET" (Arr1 [1; 2; 3])] "NIFTI_INTENT_NORMAL").
  repeat constructor. simpl. discriminate.
Defined.

Lemma load_gii_data_foreign_intent_witness :
  load_gii_data [mkDataArray "NIFTI_INTENT_NORMAL" (Arr1 [1; 2]);
                 mkDataArray "NIFTI_INTENT_TIME_SERIES" (Arr1 [7; 8])]
    "NIFTI_INTENT_NORMAL"
  = inl NpIndexError.
Proof.
  apply (load_gii_data_foreign_intent
           [mkDataArray "NIFTI_INTENT_NORMAL" (Arr1 [1; 2]);
            mkDataArray "NIFTI_INTENT_TIME_SERIES" (Arr1 [7; 8])]
           "NIFTI_INTENT_NORMAL" [[1; 2]] 2).
  - vm_compute. reflexivity.
  - discriminate.
  - repeat constructor.
  - simpl. lia.
Defined.

Lemma load_gii_data_ragged_witness :
  load_gii_data [mkDataArray "NIFTI_INTENT_NORMAL" (Arr1 [1; 2]);
                 mkDataArray "NIFTI_INTENT_NORMAL" (Arr1 [3])]
    "NIFTI_INTENT_NORMAL"
  = inl NpValueError.
Proof.
  apply (load_gii_data_ragged "NIFTI_INTENT_NORMAL" [1; 2] [3] []).
  simpl. lia.
Defined.
